(** * Optimal Delaunay Triangulation smoothing (optimesh/odt.py)

    A shallow embedding of [src/optimesh/odt.py] and the properties its
    specification states about it.

    Conventions of the embedding.
    - Numbers: numpy's float64 values are idealised as exact rationals
      ([Qc], canonical fractions, so that equality is Leibniz equality).
      Rounding, overflow and NaN are outside the model.
    - Arrays: a numpy array of shape (n,) is a [list num], one of shape
      (n, 2) a [list point], the connectivity [mesh.cells["nodes"]] a
      [list cell]. Indexing out of range raises [IndexError], operands of
      different lengths raise [ValueError] (numpy's broadcasting of
      length-one operands is not modelled).
    - Python 3 semantics: [/] is true division. Division is the total
      division of [Qc]; on a valid mesh no divisor of [energy] is zero.
    - Points are 2D ([X.shape[1]] is 2), cells are triangles.
    - Exceptions: a computation returns [Ok v] or [Raise e].
    - The collaborators that odt.py imports (meshplex, quadpy, scipy, the
      package's own helpers module) are interfaces, given as type
      classes. *)

From Stdlib Require Import QArith Qcanon.
From stdpp Require Import base tactics option list numbers.

Local Open Scope Qc_scope.

(** ** Exceptions *)

Inductive exn : Type :=
| AssertionError
| IndexError
| ValueError
| UserError.   (* raised by caller-supplied code *)

Inductive result (A : Type) : Type :=
| Ok (a : A)
| Raise (e : exn).
Arguments Ok {A} a.
Arguments Raise {A} e.

#[global] Instance result_ret : MRet result := fun A a => Ok a.
#[global] Instance result_bind : MBind result := fun A B f r =>
  match r with
  | Ok a => f a
  | Raise e => Raise e
  end.
#[global] Instance result_fmap : FMap result := fun A B f r =>
  match r with
  | Ok a => Ok (f a)
  | Raise e => Raise e
  end.

(** [assert c] *)
Definition assert (c : bool) : result unit :=
  if c then Ok tt else Raise AssertionError.

Definition from_option {A} (e : exn) (o : option A) : result A :=
  match o with
  | Some a => Ok a
  | None => Raise e
  end.

(** ** Numbers, points, cells *)

Abbreviation num := Qc.
Definition point : Type := num * num.
Definition cell : Type := nat * nat * nat.
Definition triangle : Type := point * point * point.

Definition of_nat (n : nat) : num := Q2Qc (inject_Z (Z.of_nat n)).

Definition leb (a b : num) : bool := bool_decide (a ≤ b).

Definition padd (p q : point) : point := (p.1 + q.1, p.2 + q.2).
Definition psub (p q : point) : point := (p.1 - q.1, p.2 - q.2).
Definition pscale (p : point) (s : num) : point := (p.1 * s, p.2 * s).
Definition pzero : point := (0, 0).

(** The rational a number stands for. *)
Definition as_Q (p : point) : Q * Q := (this p.1, this p.2).

(** Column [i] of the connectivity array, [cells[:, i]]. *)
Definition slot (i : nat) (c : cell) : nat :=
  match i with
  | 0%nat => c.1.1
  | 1%nat => c.1.2
  | _ => c.2
  end.

(** ** numpy and fastfunc operations on arrays *)

Section Arrays.
Context {A : Type}.

(** [a[idx]] for an integer index array. *)
Definition take (a : list A) (idx : list nat) : result (list A) :=
  mapM (fun i => from_option IndexError (a !! i)) idx.

(** [a[mask]] for a boolean mask. *)
Fixpoint select (mask : list bool) (a : list A) : list A :=
  match mask, a with
  | b :: mask', x :: a' => if b then x :: select mask' a' else select mask' a'
  | _, _ => []
  end.

Definition get_mask (a : list A) (mask : list bool) : result (list A) :=
  if decide (length mask = length a) then Ok (select mask a)
  else Raise IndexError.

(** The positions a mask selects receive the values in order. *)
Fixpoint fill (mask : list bool) (a vals : list A) : list A :=
  match mask, a with
  | b :: mask', x :: a' =>
      if b then
        match vals with
        | v :: vals' => v :: fill mask' a' vals'
        | [] => x :: a'
        end
      else x :: fill mask' a' vals
  | _, _ => a
  end.

Definition count_true (mask : list bool) : nat :=
  length (filter (fun b => b = true) mask).

(** [a[mask] = vals], with one value for every selected position. numpy
    also takes a single row and copies it to every selected position;
    that broadcast is not modelled, such a write raises [ValueError]. *)
Definition put_mask (a : list A) (mask : list bool) (vals : list A)
  : result (list A) :=
  if decide (length mask = length a) then
    if decide (length vals = count_true mask) then Ok (fill mask a vals)
    else Raise ValueError
  else Raise IndexError.

(** [a[i] = v] for every [(i, v)] of the list in turn: [a[idx] = vals]. *)
Fixpoint put (a : list A) (idx : list nat) (vals : list A) : result (list A) :=
  match idx, vals with
  | [], [] => Ok a
  | i :: idx', v :: vals' =>
      if decide (i < length a)%nat then put (<[i := v]> a) idx' vals'
      else Raise IndexError
  | _, _ => Raise ValueError
  end.

Variable add : A -> A -> A.

(** [fastfunc.add.at(a, idx, vals)]: [a[idx[k]] += vals[k]] for every
    [k] in turn, repeated indices accumulating. *)
Fixpoint add_at (a : list A) (idx : list nat) (vals : list A)
  : result (list A) :=
  match idx, vals with
  | [], [] => Ok a
  | i :: idx', v :: vals' =>
      match a !! i with
      | Some x => add_at (<[i := add x v]> a) idx' vals'
      | None => Raise IndexError
      end
  | _, _ => Raise ValueError
  end.

(** Elementwise binary operation on arrays of one shape. *)
Fixpoint zip_same {B C} (f : A -> B -> C) (a : list A) (b : list B)
  : result (list C) :=
  match a, b with
  | [], [] => Ok []
  | x :: a', y :: b' => cons (f x y) <$> zip_same f a' b'
  | _, _ => Raise ValueError
  end.
End Arrays.

(** [numpy.sum(a)] *)
Definition sum (a : list num) : num := foldl Qcplus 0 a.

(** [numpy.dot(a, b)] for two vectors. *)
Definition dot (a b : list num) : result num :=
  sum <$> zip_same Qcmult a b.

(** [numpy.einsum("ij,ij->i", a, a)] on an (n, 2) array. *)
Definition norm2 (p : point) : num := p.1 * p.1 + p.2 * p.2.

(** [x.reshape(-1, 2)] *)
Fixpoint reshape2 (x : list num) : result (list point) :=
  match x with
  | [] => Ok []
  | a :: b :: x' => cons (a, b) <$> reshape2 x'
  | _ => Raise ValueError
  end.

(** [a.flatten()] on an (n, 2) array. *)
Definition flatten (a : list point) : list num :=
  flat_map (fun p => [p.1; p.2]) a.

(** ** The mesh (meshplex.MeshTri)

    The mesh object holds the node coordinates, the connectivity and the
    derived per-cell arrays. An attribute access such as
    [mesh.cell_circumcenters] yields the array the mesh holds, not a copy:
    a write through the returned array is a write to the mesh. *)

Record MeshTri : Type := {
  node_coords : list point;
  cells_nodes : list cell;            (* mesh.cells["nodes"] *)
  cell_volumes : list num;
  cell_circumcenters : list point;
  cell_barycenters : list point;
  edges_cells_1 : list nat;           (* mesh.edges_cells[1][:, 0] *)
  is_interior_node : list bool;
}.

Definition set_node_coords (m : MeshTri) (v : list point) : MeshTri :=
  {| node_coords := v;
     cells_nodes := cells_nodes m;
     cell_volumes := cell_volumes m;
     cell_circumcenters := cell_circumcenters m;
     cell_barycenters := cell_barycenters m;
     edges_cells_1 := edges_cells_1 m;
     is_interior_node := is_interior_node m |}.

Definition set_cell_circumcenters (m : MeshTri) (v : list point) : MeshTri :=
  {| node_coords := node_coords m;
     cells_nodes := cells_nodes m;
     cell_volumes := cell_volumes m;
     cell_circumcenters := v;
     cell_barycenters := cell_barycenters m;
     edges_cells_1 := edges_cells_1 m;
     is_interior_node := is_interior_node m |}.

(** [x[mesh.cells["nodes"]]]: the corner coordinates of every cell. *)
Definition cell_triangles (mesh : MeshTri) : result (list triangle) :=
  let x := node_coords mesh in
  t0 ← take x (map (slot 0) (cells_nodes mesh));
  t1 ← take x (map (slot 1) (cells_nodes mesh));
  t2 ← take x (map (slot 2) (cells_nodes mesh));
  mret (zip_with (fun ab c => (ab.1, ab.2, c)) (zip t0 t1) t2).

(** quadpy: [quadpy.triangle.integrate(f, triangles, Dunavant(2))], the
    value for one triangle. *)
Class Quadpy : Type := {
  integrate_dunavant2 : (point -> num) -> triangle -> num;
}.

(** ** energy *)

Section Energy.
Context {QP : Quadpy}.

(** One pass of the loop [for i in range(3)] of [energy]. *)
Definition star_volume_slot (mesh : MeshTri) (uniform_density : bool)
    (star_volume : list num) (i : nat) : result (list num) :=
  let idx := map (slot i) (cells_nodes mesh) in
  if uniform_density then add_at Qcplus star_volume idx (cell_volumes mesh)
  else add_at Qcplus star_volume idx (replicate (length idx) 1).

(** Lines 38-48: the accumulator and the loop over the three slots. *)
Definition star_volume_loop (mesh : MeshTri) (uniform_density : bool)
  : result (list num) :=
  let star_volume := replicate (length (node_coords mesh)) 0 in
  star_volume ← star_volume_slot mesh uniform_density star_volume 0;
  star_volume ← star_volume_slot mesh uniform_density star_volume 1;
  star_volume_slot mesh uniform_density star_volume 2.

(** Lines 28-70. The assertion of line 68 compares [out] and [val] as
    exact numbers; on float64 values their rounding decides it, so that
    it can fail on a mesh on which the exact values pass. *)
Definition energy (mesh : MeshTri) (uniform_density : bool) : result num :=
  let dim := (3 - 1)%nat in           (* cells["nodes"].shape[1] - 1 *)
  star_volume ← star_volume_loop mesh uniform_density;
  let x2 := map norm2 (node_coords mesh) in
  d ← dot star_volume x2;
  let out := 1 / of_nat (dim + 1) * d in
  _ ← assert (bool_decide (dim = 2%nat));
  triangles ← cell_triangles mesh;
  let val := map (integrate_dunavant2 (fun x => x.1 * x.1 + x.2 * x.2))
                 triangles in
  val ← (if uniform_density then Ok (sum val)
         else
           let rho := map (fun v => 1 / v) (cell_volumes mesh) in
           dot val rho);
  _ ← assert (leb val out);
  Ok (out - val).
End Energy.

(** ** State and exceptions

    A computation over a mutable store [S] that may raise: the store
    it leaves behind is kept when it raises, as Python keeps the side
    effects made before an exception. *)

Definition ST (S A : Type) : Type := S -> S * result A.

#[global] Instance ST_ret {S} : MRet (ST S) := fun A a s => (s, Ok a).
#[global] Instance ST_bind {S} : MBind (ST S) := fun A B f c s =>
  match c s with
  | (s', Ok a) => f a s'
  | (s', Raise e) => (s', Raise e)
  end.

Definition lift {S A} (r : result A) : ST S A := fun s => (s, r).
Definition get {S} : ST S S := fun s => (s, Ok s).
Definition modify {S} (f : S -> S) : ST S unit := fun s => (f s, Ok tt).

(** [triple P c Q E]: from a store that satisfies [P], the computation [c]
    either returns [a] and leaves a store that satisfies [Q a], or raises
    and leaves a store that satisfies [E]. *)
Definition triple {S A} (P : S -> Prop) (c : ST S A)
    (Q : A -> S -> Prop) (E : S -> Prop) : Prop :=
  forall s, P s ->
    match c s with
    | (s', Ok a) => Q a s'
    | (s', Raise _) => E s'
    end.

(** A computation keeps [I] whatever its outcome. *)
Definition keeps {S A} (I : S -> Prop) (c : ST S A) : Prop :=
  triple I c (fun _ => I) I.

(** ** Collaborators *)

(** meshplex: the constructor [MeshTri(points, cells)] and the two
    methods odt.py calls. *)
Class Meshplex : Type := {
  MeshTri_init : list point -> list cell -> MeshTri;
  update_values : MeshTri -> MeshTri;
  flip_until_delaunay : MeshTri -> MeshTri;
}.

(** What odt.py relies on from meshplex (sections 3 and 4.3 of the
    specification): the constructor keeps the points and cells it is
    given, the interior mask has one flag per node and is fixed when the
    mesh is built, recomputing the derived arrays changes neither
    coordinates nor connectivity, and flipping edges changes no
    coordinate. *)
Class MeshplexLaws (MP : Meshplex) : Prop := {
  init_node_coords X cells : node_coords (MeshTri_init X cells) = X;
  init_cells X cells : cells_nodes (MeshTri_init X cells) = cells;
  init_mask_length X cells :
    length (is_interior_node (MeshTri_init X cells)) = length X;
  update_node_coords m : node_coords (update_values m) = node_coords m;
  update_cells m : cells_nodes (update_values m) = cells_nodes m;
  update_mask m : is_interior_node (update_values m) = is_interior_node m;
  flip_node_coords m :
    node_coords (flip_until_delaunay m) = node_coords m;
  flip_mask m :
    is_interior_node (flip_until_delaunay m) = is_interior_node m;
}.

(** helpers.py: the two averaging helpers, called with the mesh and the
    per-cell reference points. *)
Class Helpers : Type := {
  get_new_points_volume_averaged : MeshTri -> list point -> result (list point);
  get_new_points_count_averaged : MeshTri -> list point -> result (list point);
}.

(** scipy.optimize.minimize: a minimizer is known to odt.py only through
    the calls it makes to the objective, the gradient and the callback,
    and through the result it returns ([out.x], [out.nit],
    [out.success]), or the exception it raises itself (scipy rejects
    an empty [x0] with a ValueError). Every run is a finite tree of such
    calls. *)
Inductive minimizer : Type :=
| Finish (x : list num) (nit : nat) (success : bool)
| Abort (e : exn)
| EvalF (x : list num) (k : num -> minimizer)
| EvalJac (x : list num) (k : list num -> minimizer)
| StepCallback (xk : list num) (k : minimizer).

Class Scipy : Type := {
  (** [minimize(f, x0, jac=jac, method="BFGS", tol=tol,
      callback=..., options={"maxiter": maxiter})] *)
  minimize_bfgs : list num -> num -> nat -> minimizer;
}.

(** A minimizer that makes no step: it may evaluate the objective and
    the gradient, never calls the callback, and returns [x0] unless it
    raises. *)
Inductive no_steps (x0 : list num) : minimizer -> Prop :=
| no_steps_finish nit success : no_steps x0 (Finish x0 nit success)
| no_steps_abort e : no_steps x0 (Abort e)
| no_steps_f x k : (forall v, no_steps x0 (k v)) -> no_steps x0 (EvalF x k)
| no_steps_jac x k : (forall g, no_steps x0 (k g)) -> no_steps x0 (EvalJac x k).

(** With [maxiter = 0] scipy's BFGS makes no step. *)
Class ScipyLaws (SP : Scipy) : Prop := {
  maxiter_zero x0 tol : no_steps x0 (minimize_bfgs x0 tol 0);
}.

(** ** The fixed-point relocators *)

Section FixedPoint.
Context {MP : Meshplex} {HP : Helpers}.

(** Lines 83-87, shared by both variants: [cc] is the circumcenter array
    of the mesh itself, and the indexed assignment writes into it. *)
Definition substitute_boundary : ST MeshTri (list point) :=
  mesh ← get;
  let cc := cell_circumcenters mesh in
  let bc := cell_barycenters mesh in
  let boundary_cell_ids := edges_cells_1 mesh in
  vals ← lift (take bc boundary_cell_ids);
  cc ← lift (put cc boundary_cell_ids vals);
  _ ← modify (fun mesh => set_cell_circumcenters mesh cc);
  mret cc.

(** [get_new_points] of [fixed_point_uniform] *)
Definition get_new_points_uniform : ST MeshTri (list point) :=
  cc ← substitute_boundary;
  mesh ← get;
  lift (get_new_points_volume_averaged mesh cc).

(** [get_new_points] of [fixed_point_density_preserving] *)
Definition get_new_points_density_preserving : ST MeshTri (list point) :=
  cc ← substitute_boundary;
  mesh ← get;
  lift (get_new_points_count_averaged mesh cc).
End FixedPoint.

(** ** The iteration driver and the averaging helpers (helpers.py) *)

(** Modelled from the spec: the orientation of a triangle, which the
    driver compares before and after a step, is the sign of its signed
    area. *)
Definition signed_area (t : triangle) : num :=
  let '(a, b, c) := t in
  ((b.1 - a.1) * (c.2 - a.2) - (c.1 - a.1) * (b.2 - a.2)) / 2.

(** Modelled from the spec: the orientation of every cell. *)
Definition cell_orientations (mesh : MeshTri) : result (list bool) :=
  map (fun t => bool_decide (0 < signed_area t)) <$> cell_triangles mesh.

(** Modelled from the spec: the number of halvings after which a damped step
    length has become zero (float64 underflows after 1075 halvings of 1). *)
Definition damping_limit : nat := 1075.

Section Runner.
Context {MP : Meshplex}.

(** Modelled from the spec: "the driver applies the result to interior
    nodes", here with the step length [alpha], and recomputes the
    geometry. *)
Definition try_step (original_coords new_points : list point) (alpha : num)
  : ST MeshTri unit :=
  xnew ← lift (zip_same
                 (fun o n => padd (pscale o (1 - alpha)) (pscale n alpha))
                 original_coords new_points);
  mesh ← get;
  coords ← lift (put_mask (node_coords mesh) (is_interior_node mesh) xnew);
  modify (fun mesh => update_values (set_node_coords mesh coords)).

(** Modelled from the spec: the driver "detects any resulting
    triangle-orientation flip, damps the step if one occurs". *)
Fixpoint damp (halvings : nat) (original_orient : list bool)
    (original_coords new_points : list point) (alpha : num)
  : ST MeshTri num :=
  _ ← try_step original_coords new_points alpha;
  mesh ← get;
  new_orient ← lift (cell_orientations mesh);
  if bool_decide (original_orient = new_orient) then mret alpha
  else
    match halvings with
    | O => _ ← try_step original_coords new_points 0; mret 0
    | S h => damp h original_orient original_coords new_points (alpha / 2)
    end.

(** Modelled from the spec: the convergence test on the "positional-change
    tolerance" of section 6. *)
Definition small_update (tol alpha : num)
    (original_coords new_points : list point) : result bool :=
  diff ← zip_same (fun o n => pscale (psub n o) alpha)
                  original_coords new_points;
  mret (forallb (fun d => bool_decide (norm2 d < tol * tol)) diff).

(** Modelled from the spec: the iteration driver [runner] of helpers.py,
    whose body is not among the sources. Section 4.2: [get_new_points]
    is "called once per outer iteration; the driver applies the result
    to interior nodes, detects any resulting triangle-orientation flip,
    damps the step if one occurs, and re-evaluates until a convergence
    tolerance or iteration cap is reached"; section 6: the tolerance is
    a "positional-change tolerance". *)
Fixpoint runner_loop (get_new_points : ST MeshTri (list point))
    (tol : num) (steps_left : nat) : ST MeshTri unit :=
  match steps_left with
  | O => mret tt
  | S k =>
      new_points ← get_new_points;
      mesh ← get;
      original_orient ← lift (cell_orientations mesh);
      original_coords ← lift (get_mask (node_coords mesh)
                                       (is_interior_node mesh));
      alpha ← damp damping_limit original_orient original_coords
                   new_points 1;
      stop ← lift (small_update tol alpha original_coords new_points);
      if stop : bool then mret tt else runner_loop get_new_points tol k
  end.

(** Modelled from the spec: [runner(get_new_points, mesh, tol,
    max_num_steps)]. *)
Definition runner (get_new_points : ST MeshTri (list point))
    (tol : num) (max_num_steps : nat) : ST MeshTri unit :=
  runner_loop get_new_points tol max_num_steps.
End Runner.

(** Modelled from the spec: the sum, over the cells of the star of every
    node, of a per-cell value. *)
Definition scatter_cells {A} (add : A -> A -> A) (zero : A)
    (mesh : MeshTri) (vals : list A) : result (list A) :=
  let acc := replicate (length (node_coords mesh)) zero in
  acc ← add_at add acc (map (slot 0) (cells_nodes mesh)) vals;
  acc ← add_at add acc (map (slot 1) (cells_nodes mesh)) vals;
  add_at add acc (map (slot 2) (cells_nodes mesh)) vals.

(** Modelled from the spec: [get_new_points_volume_averaged] of
    helpers.py. Section 4.2: "for each interior node, returns the
    volume-weighted average of the target points of cells in that node's
    star". *)
Definition volume_averaged (mesh : MeshTri) (reference_points : list point)
  : result (list point) :=
  scaled ← zip_same pscale reference_points (cell_volumes mesh);
  weighted ← scatter_cells padd pzero mesh scaled;
  omega ← scatter_cells Qcplus 0 mesh (cell_volumes mesh);
  avg ← zip_same (fun p w => pscale p (1 / w)) weighted omega;
  get_mask avg (is_interior_node mesh).

(** Modelled from the spec: [get_new_points_count_averaged] of helpers.py.
    Sections 4.2 and 9: the "arithmetic mean of per-cell target points in
    a node's star, unweighted". *)
Definition count_averaged (mesh : MeshTri) (reference_points : list point)
  : result (list point) :=
  _ ← (if decide (length reference_points = length (cells_nodes mesh))
       then Ok tt else Raise ValueError);
  summed ← scatter_cells padd pzero mesh reference_points;
  omega ← scatter_cells Qcplus 0 mesh
            (replicate (length (cells_nodes mesh)) 1);
  avg ← zip_same (fun p w => pscale p (1 / w)) summed omega;
  get_mask avg (is_interior_node mesh).

(** ** The fixed-point entry points *)

Section EntryPoints.
Context {MP : Meshplex} {HP : Helpers}.

Definition fixed_point_uniform (points : list point) (cells : list cell)
    (tol : num) (max_num_steps : nat) : result (list point * list cell) :=
  let mesh := MeshTri_init points cells in
  match runner get_new_points_uniform tol max_num_steps mesh with
  | (mesh, Ok _) => Ok (node_coords mesh, cells_nodes mesh)
  | (_, Raise e) => Raise e
  end.

Definition fixed_point_density_preserving (points : list point)
    (cells : list cell) (tol : num) (max_num_steps : nat)
  : result (list point * list cell) :=
  let mesh := MeshTri_init points cells in
  match runner get_new_points_density_preserving tol max_num_steps mesh with
  | (mesh, Ok _) => Ok (node_coords mesh, cells_nodes mesh)
  | (_, Raise e) => Raise e
  end.
End EntryPoints.

(** ** nonlinear_optimization_uniform *)

(** What the function prints, saves and passes to the caller's callback,
    in the order it happens. *)
Inductive event : Type :=
| PrintBefore                                  (* print("Before:") *)
| PrintStep (k : nat)                          (* print("\nStep {}:") *)
| PrintFinal (nit : nat)                       (* print("\nFinal ({} steps):") *)
| PrintBlank                                   (* print() *)
| PrintStats (mesh : MeshTri) (energy : num)   (* print_stats(mesh, extra_cols) *)
| Save (k : nat) (mesh : MeshTri)              (* mesh.save(format(k), ...) *)
| Callback (k : nat) (mesh : MeshTri).         (* callback(k, mesh) *)

(** The mesh shared by the closures, the attribute [flip_delaunay.step]
    and the output made so far. *)
Record state : Type := {
  mesh : MeshTri;
  step : nat;
  out : list event;
}.

Definition get_mesh : ST state MeshTri := fun s => (s, Ok (mesh s)).
Definition get_step : ST state nat := fun s => (s, Ok (step s)).
Definition modify_mesh (f : MeshTri -> MeshTri) : ST state unit :=
  modify (fun s => {| mesh := f (mesh s); step := step s; out := out s |}).
Definition set_step (k : nat) : ST state unit :=
  modify (fun s => {| mesh := mesh s; step := k; out := out s |}).
Definition emit (e : event) : ST state unit :=
  modify (fun s => {| mesh := mesh s; step := step s; out := out s ++ [e] |}).

(** The calls of the caller's callback among the output, in order. *)
Definition callbacks (l : list event) : list (nat * MeshTri) :=
  flat_map (fun e => match e with
                     | Callback k mesh => [(k, mesh)]
                     | _ => []
                     end) l.

(** A property of the mesh, as a property of the store. *)
Definition on_mesh (P : MeshTri -> Prop) : state -> Prop :=
  fun s => P (mesh s).

(** The callback has been called with the counts 0, 1, ..., [step], first
    of all with count 0 and the mesh [m0]. *)
Definition called_each_step (m0 : MeshTri) (s : state) : Prop :=
  (exists rest, callbacks (out s) = (0%nat, m0) :: rest)
  /\ map fst (callbacks (out s)) = seq 0 (S (step s)).

(** The store when the function starts: the mesh just built, no output. *)
Definition initial_state {MP : Meshplex} (X : list point) (cells : list cell)
  : state :=
  {| mesh := MeshTri_init X cells; step := 0; out := [] |}.

(** The value [energy] takes for [uniform_density] when the caller gives
    none (line 28). *)
Definition uniform_density_default : bool := false.

Section Nonlinear.
Context {QP : Quadpy} {MP : Meshplex} {SP : Scipy}.

Variable verbose : bool.
Variable step_filename_format : bool.   (* truthiness of the template *)
(** The caller's callback reads the mesh and may raise. *)
Variable callback : option (nat -> MeshTri -> result unit).

(** [mesh.node_coords[mesh.is_interior_node] = x.reshape(-1, X.shape[1])] *)
Definition assign_interior (x : list num) : ST state unit :=
  rows ← lift (reshape2 x);
  mesh ← get_mesh;
  coords ← lift (put_mask (node_coords mesh) (is_interior_node mesh) rows);
  modify_mesh (fun mesh => set_node_coords mesh coords).

Definition f (x : list num) : ST state num :=
  _ ← assign_interior x;
  _ ← modify_mesh update_values;
  mesh ← get_mesh;
  lift (energy mesh true).

(** One pass of the loop [for mcn in mesh.cells["nodes"].T] of [jac]. *)
Definition grad_slot (mesh : MeshTri) (grad : list point) (i : nat)
  : result (list point) :=
  let cc := cell_circumcenters mesh in
  let mcn := map (slot i) (cells_nodes mesh) in
  nc ← take (node_coords mesh) mcn;
  d ← zip_same psub nc cc;
  v ← zip_same pscale d (cell_volumes mesh);
  add_at padd grad mcn v.

(** Lines 172-180 of [jac], on the mesh as it is after the update. *)
Definition grad_loop (mesh : MeshTri) : result (list point) :=
  let grad := replicate (length (node_coords mesh)) pzero in
  grad ← grad_slot mesh grad 0;
  grad ← grad_slot mesh grad 1;
  grad_slot mesh grad 2.

Definition gradient (mesh : MeshTri) : result (list num) :=
  grad ← grad_loop mesh;
  let gdim := 2%nat in
  let grad := map (fun g => pscale g (of_nat 2 / of_nat (gdim + 1))) grad in
  flatten <$> get_mask grad (is_interior_node mesh).

Definition jac (x : list num) : ST state (list num) :=
  _ ← assign_interior x;
  _ ← modify_mesh update_values;
  mesh ← get_mesh;
  lift (gradient mesh).

Definition call_callback (k : nat) : ST state unit :=
  match callback with
  | Some cb =>
      mesh ← get_mesh;
      _ ← emit (Callback k mesh);
      lift (cb k mesh)
  | None => mret tt
  end.

Definition save (k : nat) : ST state unit :=
  if step_filename_format then mesh ← get_mesh; emit (Save k mesh)
  else mret tt.

Definition flip_delaunay (x : list num) : ST state unit :=
  k ← get_step;
  _ ← set_step (k + 1);
  _ ← assign_interior x;
  _ ← modify_mesh update_values;
  _ ← modify_mesh flip_until_delaunay;
  k ← get_step;
  _ ← save k;
  _ ← (if verbose then
         _ ← emit (PrintStep k);
         e ← f x;
         mesh ← get_mesh;
         emit (PrintStats mesh e)
       else mret tt);
  k ← get_step;
  call_callback k.

(** The minimizer's calls, answered by the three closures. *)
Fixpoint run_minimizer (s : minimizer) : ST state (list num * nat * bool) :=
  match s with
  | Finish x nit success => mret (x, nit, success)
  | Abort e => lift (Raise e)
  | EvalF x k => v ← f x; run_minimizer (k v)
  | EvalJac x k => g ← jac x; run_minimizer (k g)
  | StepCallback xk k => _ ← flip_delaunay xk; run_minimizer k
  end.

(** The iterates the minimizer hands to its callback on the run from
    the store [s], one for every step it accepts: the path through the
    tree is the one the values of [f] and [jac] select. *)
Fixpoint accepted_steps (m : minimizer) (s : state) : list (list num) :=
  match m with
  | Finish _ _ _ | Abort _ => []
  | EvalF x k =>
      match f x s with
      | (s', Ok v) => accepted_steps (k v) s'
      | (_, Raise _) => []
      end
  | EvalJac x k =>
      match jac x s with
      | (s', Ok g) => accepted_steps (k g) s'
      | (_, Raise _) => []
      end
  | StepCallback xk k =>
      xk :: match flip_delaunay xk s with
            | (s', Ok _) => accepted_steps k s'
            | (_, Raise _) => []
            end
  end.

Definition print_energy_stats : ST state unit :=
  mesh ← get_mesh;
  e ← lift (energy mesh uniform_density_default);
  emit (PrintStats mesh e).

(** Lines 147-213: everything before the call of the minimizer; the
    value is [x0]. *)
Definition prologue (X : list point) : ST state (list num) :=
  _ ← save 0;
  _ ← emit PrintBefore;
  _ ← print_energy_stats;
  _ ← set_step 0;
  mesh ← get_mesh;
  rows ← lift (get_mask X (is_interior_node mesh));
  let x0 := flatten rows in
  _ ← call_callback 0;
  mret x0.

(** Lines 234-244: "One last edge flip", the final statistics and the
    returned pair. *)
Definition final_flip (x : list num) (nit : nat)
  : ST state (list point * list cell) :=
  _ ← assign_interior x;
  _ ← modify_mesh update_values;
  _ ← modify_mesh flip_until_delaunay;
  _ ← emit (PrintFinal nit);
  _ ← print_energy_stats;
  _ ← emit PrintBlank;
  mesh ← get_mesh;
  mret (node_coords mesh, cells_nodes mesh).

Definition nonlinear_body (X : list point) (tol : num) (max_num_steps : nat)
  : ST state (list point * list cell) :=
  x0 ← prologue X;
  res ← run_minimizer (minimize_bfgs x0 tol max_num_steps);
  (* Don't assert out.success; max_num_steps may be reached, that's fine. *)
  let '(x, nit, _) := res in
  final_flip x nit.

Definition nonlinear_optimization_uniform (X : list point)
    (cells : list cell) (tol : num) (max_num_steps : nat)
  : state * result (list point * list cell) :=
  nonlinear_body X tol max_num_steps (initial_state X cells).
End Nonlinear.

(** ** Mesh topology in the words of the specification *)

(** The three edges of a cell, each as the pair of its end nodes. *)
Definition cell_edges (c : cell) : list (nat * nat) :=
  let '(n0, n1, n2) := c in [(n1, n2); (n2, n0); (n0, n1)].

Definition same_edge (e1 e2 : nat * nat) : bool :=
  bool_decide (e1 = e2) || bool_decide (e1 = (e2.2, e2.1)).

Definition has_edge (e : nat * nat) (c : cell) : bool :=
  existsb (same_edge e) (cell_edges c).

(** The number of cells incident to an edge. *)
Definition incident_cells (cells : list cell) (e : nat * nat) : nat :=
  length (filter (fun c => has_edge e c = true) cells).

(** A boundary cell: one of its edges has exactly one incident cell. *)
Definition touches_boundary (cells : list cell) (c : cell) : bool :=
  existsb (fun e => bool_decide (incident_cells cells e = 1%nat)) (cell_edges c).

(** ** The quantities of the specification *)

(** The sum of [f b] over the elements [b] of a list. *)
Definition bigsum {A B} (add : A -> A -> A) (zero : A) (f : B -> A)
    (l : list B) : A :=
  foldr (fun b acc => add (f b) acc) zero l.

(** Node [i]'s share of a per-cell, per-slot quantity [g]: the sum, over
    every cell and each of its three slots, of [g] where the slot holds
    node [i]. *)
Definition star_sum {A B} (add : A -> A -> A) (zero : A)
    (cell_of : B -> cell) (g : B -> nat -> A) (l : list B) (i : nat) : A :=
  bigsum add zero
    (fun b =>
       bigsum add zero
         (fun s => if decide (slot s (cell_of b) = i) then g b s else zero)
         [0; 1; 2]%nat)
    l.

Definition node_at (coords : list point) (n : nat) : point :=
  default pzero (coords !! n).

Definition corner_points (coords : list point) (c : cell) : triangle :=
  (node_at coords (slot 0 c), node_at coords (slot 1 c),
   node_at coords (slot 2 c)).

(** The density weight of a cell of volume [v]. *)
Definition cell_weight (uniform_density : bool) (v : num) : num :=
  if uniform_density then v else 1.

(** [star_volume[i]] *)
Definition star_volume_spec (mesh : MeshTri) (uniform_density : bool)
    (i : nat) : num :=
  star_sum Qcplus 0 fst (fun cv _ => cell_weight uniform_density cv.2)
           (zip (cells_nodes mesh) (cell_volumes mesh)) i.

(** S = 1/(d+1) * sum_i star_volume[i] * ||coords[i]||^2, with d = 2. *)
Definition star_term_spec (mesh : MeshTri) (uniform_density : bool) : num :=
  1 / of_nat (2 + 1) *
  bigsum Qcplus 0
    (fun ip => star_volume_spec mesh uniform_density ip.1 * norm2 ip.2)
    (imap pair (node_coords mesh)).

(** I = sum over cells of the quadrature of ||x||^2 over the triangle,
    divided by the cell's volume unless the density is uniform. *)
Definition integral_term_spec {QP : Quadpy} (mesh : MeshTri)
    (uniform_density : bool) : num :=
  bigsum Qcplus 0
    (fun cv =>
       let q := integrate_dunavant2 norm2
                  (corner_points (node_coords mesh) cv.1) in
       if uniform_density then q else q * (1 / cv.2))
    (zip (cells_nodes mesh) (cell_volumes mesh)).

(** The gradient at node [i] before the restriction to interior nodes:
    the sum over the cells of the star of [(x_i - circumcenter) * volume],
    scaled by 2/(d+1). *)
Definition node_gradient_spec (mesh : MeshTri) (i : nat) : point :=
  pscale
    (star_sum padd pzero fst
       (fun b s =>
          pscale (psub (node_at (node_coords mesh) (slot s b.1)) b.2.1) b.2.2)
       (zip (cells_nodes mesh)
            (zip (cell_circumcenters mesh) (cell_volumes mesh)))
       i)
    (of_nat 2 / of_nat (2 + 1)).

(** The gradient as the optimizer receives it: the interior nodes' rows,
    in the order of the mask, flattened. *)
Definition jac_spec (mesh : MeshTri) : list num :=
  flatten (select (is_interior_node mesh)
                  (map (node_gradient_spec mesh)
                       (seq 0 (length (node_coords mesh))))).

(** The per-cell target points: the circumcenter, or the barycenter for
    a cell that touches the boundary. *)
Definition target_points (mesh : MeshTri) : list point :=
  zip_with
    (fun c (cb : point * point) =>
       if touches_boundary (cells_nodes mesh) c then cb.2 else cb.1)
    (cells_nodes mesh)
    (zip (cell_circumcenters mesh) (cell_barycenters mesh)).

(** The mesh [m] has the interior mask [mask] and agrees with the
    points [X] on every node the mask does not select. *)
Definition frame (X : list point) (mask : list bool) (m : MeshTri) : Prop :=
  is_interior_node m = mask
  /\ length mask = length X
  /\ length (node_coords m) = length X
  /\ forall i, mask !! i = Some false -> node_coords m !! i = X !! i.

(** The returned points [pts] have the boundary nodes of the input where
    the input has them. *)
Definition boundary_fixed {MP : Meshplex} (X : list point) (cells : list cell)
    (pts : list point) : Prop :=
  length pts = length X
  /\ forall i, is_interior_node (MeshTri_init X cells) !! i = Some false ->
               pts !! i = X !! i.

(** The mesh has the frame of [X] and the connectivity [cells]. *)
Definition untouched (X : list point) (cells : list cell) (mask : list bool)
    (m : MeshTri) : Prop :=
  frame X mask m /\ cells_nodes m = cells.

(** ** Valid meshes *)

Definition distinct_nodes (c : cell) : bool :=
  let '(n0, n1, n2) := c in
  bool_decide (n0 ≠ n1) && bool_decide (n1 ≠ n2) && bool_decide (n0 ≠ n2).

Definition nodes_in_range (n : nat) (c : cell) : bool :=
  bool_decide (slot 0 c < n)%nat && bool_decide (slot 1 c < n)%nat
  && bool_decide (slot 2 c < n)%nat.

(** The invariants of section 3, and the shapes of the arrays the mesh
    holds. *)
Definition valid_mesh (m : MeshTri) : bool :=
  let n := length (node_coords m) in
  let k := length (cells_nodes m) in
  forallb (nodes_in_range n) (cells_nodes m)
  && forallb distinct_nodes (cells_nodes m)
  && forallb (fun v => bool_decide (0 < v)) (cell_volumes m)
  && bool_decide (length (cell_volumes m) = k)
  && bool_decide (length (cell_circumcenters m) = k)
  && bool_decide (length (cell_barycenters m) = k)
  && bool_decide (length (is_interior_node m) = n)
  && forallb (fun i => bool_decide (i < k)%nat) (edges_cells_1 m).

(** [mesh.edges_cells[1]] lists the cells of the edges that have exactly
    one incident cell. *)
Definition edges_cells_sound (m : MeshTri) : bool :=
  forallb
    (fun '(i, c) =>
       bool_decide (touches_boundary (cells_nodes m) c
                    = bool_decide (i ∈ edges_cells_1 m)))
    (imap pair (cells_nodes m)).

(** ** Further notions *)

(** The mesh [m'] is the mesh [m] with its cells, and the per-cell
    arrays with them, listed in another order. *)
Definition same_cells (m m' : MeshTri) : Prop :=
  node_coords m' = node_coords m
  /\ is_interior_node m' = is_interior_node m
  /\ zip (cells_nodes m') (zip (cell_circumcenters m') (cell_volumes m'))
     ≡ₚ zip (cells_nodes m) (zip (cell_circumcenters m) (cell_volumes m)).

(** The snapshots saved among the output, in order. *)
Definition saves (l : list event) : list (nat * MeshTri) :=
  flat_map (fun e => match e with
                     | Save k mesh => [(k, mesh)]
                     | _ => []
                     end) l.

(** A snapshot has been saved with the counts 0, 1, ..., [step], first of
    all with count 0 and the mesh [m0]. *)
Definition saved_each_step (m0 : MeshTri) (s : state) : Prop :=
  (exists rest, saves (out s) = (0%nat, m0) :: rest)
  /\ map fst (saves (out s)) = seq 0 (S (step s)).

(** ** Reference collaborators

    Executable stand-ins for meshplex, quadpy and scipy, used to run the
    embedding on concrete meshes. *)

Module Reference.

Definition abs (x : num) : num := if bool_decide (0 ≤ x) then x else - x.

Definition volume (t : triangle) : num := abs (signed_area t).

Definition barycenter (t : triangle) : point :=
  let '(a, b, c) := t in
  ((a.1 + b.1 + c.1) / of_nat 3, (a.2 + b.2 + c.2) / of_nat 3).

Definition circumcenter (t : triangle) : point :=
  let '(a, b, c) := t in
  let d := of_nat 2 * (a.1 * (b.2 - c.2) + b.1 * (c.2 - a.2) + c.1 * (a.2 - b.2)) in
  ((norm2 a * (b.2 - c.2) + norm2 b * (c.2 - a.2) + norm2 c * (a.2 - b.2)) / d,
   (norm2 a * (c.1 - b.1) + norm2 b * (a.1 - c.1) + norm2 c * (b.1 - a.1)) / d).

Definition boundary_cell_ids (cells : list cell) : list nat :=
  flat_map
    (fun '(i, c) =>
       flat_map (fun e => if bool_decide (incident_cells cells e = 1%nat)
                          then [i] else [])
                (cell_edges c))
    (imap pair cells).

Definition on_boundary (cells : list cell) (n : nat) : bool :=
  existsb
    (fun c => existsb
                (fun e => bool_decide (incident_cells cells e = 1%nat)
                          && (bool_decide (e.1 = n) || bool_decide (e.2 = n)))
                (cell_edges c))
    cells.

(** The mesh with its derived arrays computed from coordinates and
    connectivity. *)
Definition build (coords : list point) (cells : list cell) : MeshTri :=
  let ts := map (corner_points coords) cells in
  {| node_coords := coords;
     cells_nodes := cells;
     cell_volumes := map volume ts;
     cell_circumcenters := map circumcenter ts;
     cell_barycenters := map barycenter ts;
     edges_cells_1 := boundary_cell_ids cells;
     is_interior_node :=
       map (fun n => negb (on_boundary cells n)) (seq 0 (length coords)) |}.

(** The third node of a cell that has the edge [a b]. *)
Definition opposite (c : cell) (a b : nat) : option nat :=
  let '(n0, n1, n2) := c in
  if bool_decide (a ∈ [n0; n1; n2] ∧ b ∈ [n0; n1; n2]) then
    match filter (fun n => n ≠ a ∧ n ≠ b) [n0; n1; n2] with
    | [d] => Some d
    | _ => None
    end
  else None.

Definition in_circumcircle (t : triangle) (p : point) : bool :=
  let cc := circumcenter t in
  bool_decide (norm2 (psub p cc) < norm2 (psub t.1.1 cc)).

Definition rotations (c : cell) : list cell :=
  let '(n0, n1, n2) := c in [(n0, n1, n2); (n1, n2, n0); (n2, n0, n1)].

(** The first pair of cells whose shared edge violates the
    empty-circumcircle condition, with the two cells that replace
    them. *)
Definition find_flip (coords : list point) (cells : list cell)
  : option (nat * cell * (nat * cell)) :=
  head
    (flat_map
       (fun '(i, ci) =>
          flat_map
            (fun '(a, b, c) =>
               flat_map
                 (fun '(j, cj) =>
                    if bool_decide (i = j) then []
                    else
                      match opposite cj a b with
                      | Some d =>
                          if in_circumcircle (corner_points coords (a, b, c))
                                             (node_at coords d)
                          then [(i, (a, d, c), (j, (d, b, c)))]
                          else []
                      | None => []
                      end)
                 (imap pair cells))
            (rotations ci))
       (imap pair cells)).

Fixpoint flips (fuel : nat) (coords : list point) (cells : list cell)
  : list cell :=
  match fuel with
  | O => cells
  | S n =>
      match find_flip coords cells with
      | Some (i, ci, (j, cj)) => flips n coords (<[j := cj]> (<[i := ci]> cells))
      | None => cells
      end
  end.

(** Recomputation of the derived arrays; the interior mask is the one
    made when the mesh was built. *)
Definition rebuild (m : MeshTri) (cells : list cell) : MeshTri :=
  let m' := build (node_coords m) cells in
  {| node_coords := node_coords m';
     cells_nodes := cells_nodes m';
     cell_volumes := cell_volumes m';
     cell_circumcenters := cell_circumcenters m';
     cell_barycenters := cell_barycenters m';
     edges_cells_1 := edges_cells_1 m';
     is_interior_node := is_interior_node m |}.

#[export] Instance meshplex : Meshplex := {|
  MeshTri_init := build;
  update_values m := rebuild m (cells_nodes m);
  flip_until_delaunay m :=
    let n := length (cells_nodes m) in
    rebuild m (flips (n * n) (node_coords m) (cells_nodes m));
|}.

(** Dunavant's rule of degree 2: three points of weight 1/3. *)
Definition dunavant2 (f : point -> num) (t : triangle) : num :=
  let '(a, b, c) := t in
  let w (p q r : point) : point :=
    ((of_nat 4 * p.1 + q.1 + r.1) / of_nat 6,
     (of_nat 4 * p.2 + q.2 + r.2) / of_nat 6) in
  volume t * ((f (w a b c) + f (w b c a) + f (w c a b)) / of_nat 3).

#[export] Instance helpers : Helpers := {|
  get_new_points_volume_averaged := volume_averaged;
  get_new_points_count_averaged := count_averaged;
|}.

#[export] Instance quadpy : Quadpy := {|
  integrate_dunavant2 := dunavant2;
|}.

(** Steepest descent with a fixed step, stopping on a small gradient
    or at the iteration cap. *)
Fixpoint descent (maxiter : nat) (tol : num) (x : list num) (nit : nat)
  : minimizer :=
  EvalJac x (fun g =>
    if forallb (fun gi => bool_decide (abs gi ≤ tol)) g then Finish x nit true
    else
      match maxiter with
      | O => Finish x nit false
      | S k =>
          let x' := zip_with (fun xi gi => xi - gi / of_nat 4) x g in
          StepCallback x' (descent k tol x' (S nit))
      end).

#[export] Instance scipy : Scipy := {|
  minimize_bfgs x0 tol maxiter := EvalF x0 (fun _ => descent maxiter tol x0 0);
|}.

Definition q (a b : Z) : num := Q2Qc (Qmake a (Z.to_pos b)).

(** A square with one interior node, off its centre. *)
Definition square_points : list point :=
  [(q 0 1, q 0 1); (q 2 1, q 0 1); (q 2 1, q 2 1); (q 0 1, q 2 1); (q 1 1, q 1 2)].
Definition square_cells : list cell :=
  [(0, 1, 4); (1, 2, 4); (2, 3, 4); (3, 0, 4)]%nat.

(** The same square with a flat triangle below its lower edge: the
    edge between nodes 0 and 1 is not Delaunay. *)
Definition kite_points : list point :=
  [(q 0 1, q 0 1); (q 2 1, q 0 1); (q 2 1, q 2 1); (q 0 1, q 2 1); (q 1 1, q 1 1);
   (q 1 1, q (-1) 4)].
Definition kite_cells : list cell :=
  [(0, 1, 4); (1, 2, 4); (2, 3, 4); (3, 0, 4); (0, 5, 1)]%nat.

Definition square : MeshTri := build square_points square_cells.

(** The square with its cells listed from the second on. *)
Definition square_rotated : MeshTri :=
  build square_points [(1, 2, 4); (2, 3, 4); (3, 0, 4); (0, 1, 4)]%nat.
Definition kite : MeshTri := build kite_points kite_cells.

(** The square with cell volumes that contradict its coordinates. *)
Definition defective : MeshTri :=
  {| node_coords := node_coords square;
     cells_nodes := cells_nodes square;
     cell_volumes := replicate 4 (q 1 100);
     cell_circumcenters := cell_circumcenters square;
     cell_barycenters := cell_barycenters square;
     edges_cells_1 := edges_cells_1 square;
     is_interior_node := is_interior_node square |}.

(** The square with its interior node at the centre: four cells of
    volume 1. *)
Definition centred : MeshTri :=
  build [(q 0 1, q 0 1); (q 2 1, q 0 1); (q 2 1, q 2 1); (q 0 1, q 2 1);
         (q 1 1, q 1 1)] square_cells.

(** A mesh library that hands out [defective] whatever it is given. *)
Definition careless : Meshplex :=
  {| MeshTri_init := fun _ _ => defective;
     update_values := id;
     flip_until_delaunay := id |}.

#[export] Instance meshplex_laws : MeshplexLaws meshplex.
Proof.
  split; try done.
  intros X cells. cbn. by rewrite length_map, length_seq.
Qed.

#[export] Instance scipy_laws : ScipyLaws scipy.
Proof.
  split. intros x0 tol. cbn. constructor. intros _. constructor. intros g.
  destruct (forallb _ g); constructor.
Qed.

End Reference.

(** * Properties *)

(** ** Arrays *)

Lemma take_ok {A} (d : A) (a : list A) (idx : list nat) :
  Forall (fun i => (i < length a)%nat) idx ->
  take a idx = Ok (map (fun i => default d (a !! i)) idx).
Proof.
  unfold take. induction 1 as [|i idx Hi _ IH]; [done|].
  cbn [mapM map]. destruct (lookup_lt_is_Some_2 a i Hi) as [x Hx].
  rewrite Hx. cbn. rewrite IH. done.
Qed.

Lemma zip_same_ok {A B C} (f : A -> B -> C) (a : list A) (b : list B) :
  length a = length b -> zip_same f a b = Ok (zip_with f a b).
Proof.
  revert b. induction a as [|x a IH]; intros [|y b] Hl; try done.
  cbn. rewrite IH by (cbn in Hl; lia). done.
Qed.

Section Monoid.
Context {A : Type} (add : A -> A -> A) (zero : A).
Context `{!Assoc (=) add, !Comm (=) add, !LeftId (=) zero add}.

Lemma add_zero_r x : add x zero = x.
Proof. by rewrite (comm add), (left_id zero add). Qed.

Lemma add_interchange a b c d :
  add (add a b) (add c d) = add (add a c) (add b d).
Proof.
  rewrite <-!(assoc add). f_equal.
  rewrite !(assoc add). f_equal. apply (comm add).
Qed.

Lemma bigsum_cons {B} (f : B -> A) b l :
  bigsum add zero f (b :: l) = add (f b) (bigsum add zero f l).
Proof. done. Qed.

Lemma bigsum_add {B} (f g : B -> A) l :
  add (bigsum add zero f l) (bigsum add zero g l)
  = bigsum add zero (fun b => add (f b) (g b)) l.
Proof.
  unfold bigsum. induction l as [|b l IH]; cbn.
  - apply (left_id zero add).
  - rewrite add_interchange. by rewrite IH.
Qed.

Lemma bigsum_ext {B} (f g : B -> A) l :
  (forall b, b ∈ l -> f b = g b) ->
  bigsum add zero f l = bigsum add zero g l.
Proof.
  unfold bigsum. induction l as [|b l IH]; intros Hfg; cbn; [done|].
  rewrite Hfg by left. rewrite IH; [done|]. intros; apply Hfg. by right.
Qed.

Lemma bigsum_fmap {B C} (h : C -> B) (f : B -> A) l :
  bigsum add zero f (h <$> l) = bigsum add zero (f ∘ h) l.
Proof. unfold bigsum. induction l as [|c l IH]; cbn; [done|]. by rewrite IH. Qed.

(** [fastfunc.add.at] on in-range indices: every entry receives the sum
    of the values sent to it. *)
Lemma add_at_ok {B} (key : B -> nat) (val : B -> A) (l : list B) a :
  Forall (fun b => (key b < length a)%nat) l ->
  add_at add a (key <$> l) (val <$> l)
  = Ok (imap (fun i x =>
                add x (bigsum add zero
                         (fun b => if decide (key b = i) then val b else zero)
                         l)) a).
Proof.
  intros Hl. revert a Hl. induction l as [|b l IH]; intros a Hl.
  - cbn. f_equal. apply list_eq. intros i. rewrite list_lookup_imap.
    destruct (a !! i); cbn; [|done]. by rewrite add_zero_r.
  - inversion_clear Hl as [|? ? Hb Hl'].
    rewrite !fmap_cons. cbn [add_at].
    destruct (lookup_lt_is_Some_2 a (key b) Hb) as [x Hx]. rewrite Hx.
    rewrite IH by (rewrite length_insert; done). f_equal.
    apply list_eq. intros i. rewrite !list_lookup_imap, bigsum_cons.
    destruct (decide (key b = i)) as [<-|Hne].
    + rewrite list_lookup_insert_eq by done. rewrite Hx. cbn.
      by rewrite (assoc add).
    + rewrite list_lookup_insert_ne by done.
      destruct (a !! i); cbn; [|done]. by rewrite (left_id zero add).
Qed.

(** The three passes of a scatter over the slots, from zeros. *)
Lemma scatter_slots_ok {B} (cell_of : B -> cell) (g : B -> nat -> A)
    (l : list B) (n : nat) :
  Forall (fun b => nodes_in_range n (cell_of b) = true) l ->
  (acc ← add_at add (replicate n zero)
           ((slot 0 ∘ cell_of) <$> l) ((fun b => g b 0%nat) <$> l);
   acc ← add_at add acc
           ((slot 1 ∘ cell_of) <$> l) ((fun b => g b 1%nat) <$> l);
   add_at add acc ((slot 2 ∘ cell_of) <$> l) ((fun b => g b 2%nat) <$> l))
  = Ok (star_sum add zero cell_of g l <$> seq 0 n).
Proof.
  intros Hl.
  assert (forall s (a : list A), length a = n ->
            Forall (fun b => ((slot s ∘ cell_of) b < length a)%nat) l) as Hs.
  { intros s a <-. eapply Forall_impl; [|exact Hl]. cbn. intros b.
    unfold nodes_in_range. rewrite !andb_true_iff, !bool_decide_eq_true.
    destruct s as [|[|s]]; cbn; tauto. }
  rewrite add_at_ok by (apply Hs, length_replicate). cbn.
  rewrite add_at_ok by (apply Hs; rewrite length_imap; apply length_replicate).
  cbn.
  rewrite add_at_ok
    by (apply Hs; rewrite !length_imap; apply length_replicate).
  f_equal. apply list_eq. intros i.
  rewrite !list_lookup_imap, list_lookup_fmap.
  destruct (decide (i < n)%nat) as [Hi|Hi].
  - rewrite lookup_replicate_2 by done. rewrite lookup_seq_lt by done. cbn.
    f_equal. rewrite (left_id zero add). rewrite !bigsum_add.
    unfold star_sum. apply bigsum_ext. intros b _. cbn.
    by rewrite add_zero_r, (assoc add).
  - rewrite (proj1 (lookup_replicate_None n zero i)) by lia. cbn.
    by rewrite lookup_seq_ge by lia.
Qed.
End Monoid.

#[local] Instance padd_assoc : Assoc (=) padd.
Proof. intros [] [] []. unfold padd; cbn. f_equal; ring. Qed.
#[local] Instance padd_comm : Comm (=) padd.
Proof. intros [] []. unfold padd; cbn. f_equal; ring. Qed.
#[local] Instance padd_left_id : LeftId (=) pzero padd.
Proof. intros []. unfold padd, pzero; cbn. f_equal; ring. Qed.

Lemma sum_bigsum (l : list num) : sum l = bigsum Qcplus 0 id l.
Proof.
  unfold sum, bigsum.
  assert (forall a, foldl Qcplus a l
                    = a + foldr (fun b acc => id b + acc) 0 l) as Hgen.
  { induction l as [|x l IH]; intros a; cbn; [ring|]. rewrite IH.
    unfold id. ring. }
  rewrite Hgen. ring.
Qed.

Lemma zip_with_seq_fmap {A B C D} (f : B -> C -> D) (g : nat -> B)
    (h : A -> C) (c : list A) :
  zip_with f (g <$> seq 0 (length c)) (h <$> c)
  = (fun ip => f (g ip.1) (h ip.2)) <$> imap pair c.
Proof.
  rewrite fmap_imap.
  assert (forall j, zip_with f (g <$> seq j (length c)) (h <$> c)
                    = imap (fun i x => f (g (j + i)%nat) (h x)) c) as Hgen.
  { induction c as [|x c IH]; intros j; cbn; [done|].
    rewrite Nat.add_0_r. f_equal. rewrite IH. apply imap_ext.
    intros i y _. cbn. do 2 f_equal. lia. }
  apply Hgen.
Qed.

Lemma forallb_Forall {A} (f : A -> bool) (l : list A) :
  forallb f l = true <-> Forall (fun x => f x = true) l.
Proof.
  induction l as [|x l IH]; cbn.
  - split; [constructor|done].
  - rewrite andb_true_iff, IH. split.
    + intros []. by constructor.
    + by inversion 1.
Qed.

Lemma valid_mesh_cells m :
  valid_mesh m = true ->
  Forall (fun c => nodes_in_range (length (node_coords m)) c = true)
         (cells_nodes m).
Proof.
  unfold valid_mesh. rewrite !andb_true_iff.
  intros [[[[[[[Hc _] _] _] _] _] _] _]. by apply forallb_Forall.
Qed.

Lemma valid_mesh_lengths m :
  valid_mesh m = true ->
  length (cell_volumes m) = length (cells_nodes m)
  /\ length (cell_circumcenters m) = length (cells_nodes m)
  /\ length (cell_barycenters m) = length (cells_nodes m)
  /\ length (is_interior_node m) = length (node_coords m).
Proof.
  unfold valid_mesh. rewrite !andb_true_iff, !bool_decide_eq_true. tauto.
Qed.

Lemma slot_in_range n c s :
  nodes_in_range n c = true -> (slot s c < n)%nat.
Proof.
  unfold nodes_in_range. rewrite !andb_true_iff, !bool_decide_eq_true.
  destruct s as [|[|s]]; cbn; tauto.
Qed.

(** On a valid mesh the indexing [x[mesh.cells["nodes"]]] succeeds. *)
Lemma cell_triangles_ok m :
  valid_mesh m = true ->
  cell_triangles m = Ok (corner_points (node_coords m) <$> cells_nodes m).
Proof.
  intros Hv. pose proof (valid_mesh_cells m Hv) as Hc. unfold cell_triangles.
  assert (forall s, take (node_coords m) (map (slot s) (cells_nodes m))
            = Ok (map (fun c => node_at (node_coords m) (slot s c))
                      (cells_nodes m))) as Ht.
  { intros s. rewrite (take_ok pzero).
    - by rewrite map_map.
    - apply Forall_fmap. eapply Forall_impl; [|exact Hc].
      intros c. apply slot_in_range. }
  rewrite !Ht. cbn. f_equal. clear.
  generalize (node_coords m) (cells_nodes m). intros x l.
  induction l as [|c l IH]; [done|]. cbn in *. by rewrite IH.
Qed.

Lemma replicate_zip_const {A B C} (l : list A) (k : list B) (c : C) :
  length k = length l ->
  replicate (length l) c = (fun _ => c) <$> zip l k.
Proof.
  revert k. induction l as [|x l IH]; intros [|y k] Hl; cbn in *; try done.
  f_equal. apply IH. lia.
Qed.

Lemma star_volume_slot_eq m ud sv s :
  valid_mesh m = true ->
  star_volume_slot m ud sv s
  = add_at Qcplus sv
      ((slot s ∘ fst) <$> zip (cells_nodes m) (cell_volumes m))
      ((fun b : cell * num => cell_weight ud b.2)
         <$> zip (cells_nodes m) (cell_volumes m)).
Proof.
  intros Hv. destruct (valid_mesh_lengths m Hv) as (Hvol & _).
  unfold star_volume_slot.
  rewrite (list_fmap_compose fst (slot s)), fst_zip by lia.
  destruct ud; cbn.
  - by rewrite snd_zip by lia.
  - by rewrite length_map, (replicate_zip_const _ (cell_volumes m)).
Qed.

Lemma star_volume_ok m ud :
  valid_mesh m = true ->
  star_volume_loop m ud
  = Ok (star_volume_spec m ud <$> seq 0 (length (node_coords m))).
Proof.
  intros Hv. pose proof (valid_mesh_cells m Hv) as Hc.
  destruct (valid_mesh_lengths m Hv) as (Hvol & _).
  unfold star_volume_spec, star_volume_loop.
  etrans; [|apply (scatter_slots_ok Qcplus 0 fst
                     (fun (cv : cell * num) (_ : nat) => cell_weight ud cv.2))].
  - rewrite star_volume_slot_eq by done.
    destruct (add_at _ _ _ _) as [sv1|]; cbn; [|done].
    rewrite star_volume_slot_eq by done.
    destruct (add_at _ _ _ _) as [sv2|]; cbn; [|done].
    by rewrite star_volume_slot_eq.
  - apply Forall_forall. intros [c v] Hin. cbn.
    apply list_elem_of_In, elem_of_zip_l, list_elem_of_In in Hin.
    by apply (proj1 (Forall_forall _ _) Hc).
Qed.

Lemma dot_ok (a b : list num) :
  length a = length b -> dot a b = Ok (sum (zip_with Qcmult a b)).
Proof. intros Hl. unfold dot. by rewrite zip_same_ok. Qed.

Lemma star_term_ok m ud :
  1 / of_nat 3 *
  sum (zip_with Qcmult
         (star_volume_spec m ud <$> seq 0 (length (node_coords m)))
         (map norm2 (node_coords m)))
  = star_term_spec m ud.
Proof.
  unfold star_term_spec. f_equal.
  rewrite (zip_with_seq_fmap Qcmult), sum_bigsum.
  by rewrite (bigsum_fmap Qcplus 0).
Qed.

Section EnergyFacts.
Context {QP : Quadpy}.

Lemma integral_term_ok m (ud : bool) :
  length (cell_volumes m) = length (cells_nodes m) ->
  (if ud then
     Ok (sum (map (integrate_dunavant2 (fun x : point => x.1 * x.1 + x.2 * x.2))
                  (corner_points (node_coords m) <$> cells_nodes m)))
   else
     dot (map (integrate_dunavant2 (fun x : point => x.1 * x.1 + x.2 * x.2))
              (corner_points (node_coords m) <$> cells_nodes m))
         (map (fun v => 1 / v) (cell_volumes m)))
  = Ok (integral_term_spec m ud).
Proof.
  intros Hvol. unfold integral_term_spec. destruct ud.
  - f_equal. rewrite sum_bigsum.
    rewrite <-(fst_zip (cells_nodes m) (cell_volumes m)) at 1 by lia.
    rewrite <-!list_fmap_compose. by rewrite (bigsum_fmap Qcplus 0).
  - rewrite dot_ok by (by rewrite !length_fmap).
    f_equal. rewrite sum_bigsum.
    rewrite <-list_fmap_compose, zip_with_fmap_l, zip_with_fmap_r.
    rewrite zip_with_zip, (bigsum_fmap Qcplus 0).
    apply bigsum_ext. by intros [c v] _.
Qed.

Lemma energy_value m ud :
  valid_mesh m = true ->
  energy m ud
  = if leb (integral_term_spec m ud) (star_term_spec m ud)
    then Ok (star_term_spec m ud - integral_term_spec m ud)
    else Raise AssertionError.
Proof.
  intros Hv. destruct (valid_mesh_lengths m Hv) as (Hvol & _).
  unfold energy. rewrite star_volume_ok by done. cbn.
  rewrite dot_ok by (by rewrite !length_fmap, length_seq).
  cbn. rewrite cell_triangles_ok by done. cbn.
  rewrite star_term_ok.
  pose proof (integral_term_ok m ud Hvol) as Hi. cbn in Hi.
  destruct ud; rewrite Hi; cbn; by destruct (leb _ _).
Qed.
End EnergyFacts.

(** ** The energy functional *)

Section EnergyClaims.
Context {QP : Quadpy}.


Lemma energy_Ok_inv m ud e :
  energy m ud = Ok e ->
  exists out val, leb val out = true /\ e = out - val.
Proof.
  unfold energy.
  destruct (star_volume_loop m ud) as [sv|]; cbn; [|done].
  destruct (dot sv _) as [d|]; cbn; [|done].
  destruct (cell_triangles m) as [ts|]; cbn; [|done].
  destruct (if ud then _ else _) as [val|]; cbn; [|done].
  destruct (leb val _) eqn:Hle; cbn; [|done].
  intros [= <-]. eauto.
Qed.
End EnergyClaims.

Section AssertionClaims.
Context {QP : Quadpy} {MP : Meshplex}.

(** C2. [energy] asserts that the star-volume term is at least the
    integral term before it returns their difference: a returned energy
    is non-negative; on a valid mesh that violates the bound the
    assertion fails; and the failure is not caught, an evaluation of the
    objective that raises ends the minimizer's run with the same
    exception. *)
Theorem energy_asserts_nonnegative m ud :
  (forall e, energy m ud = Ok e -> 0 ≤ e)
  /\ (valid_mesh m = true ->
      star_term_spec m ud < integral_term_spec m ud ->
      energy m ud = Raise AssertionError)
  /\ (forall verbose fmt cb x k s,
        (f x s).2 = Raise AssertionError ->
        (run_minimizer verbose fmt cb (EvalF x k) s).2
        = Raise AssertionError).
Proof.
  split; [|split].
  - intros e (out & val & Hle & ->)%energy_Ok_inv.
    unfold leb in Hle. apply bool_decide_eq_true in Hle.
    by apply Qcle_minus_iff in Hle.
  - intros Hv Hlt. rewrite energy_value by done.
    unfold leb. rewrite bool_decide_eq_false_2; [done|].
    by apply Qclt_not_le.
  - intros verbose fmt cb x k s. cbn. unfold mbind, ST_bind.
    destruct (f x s) as [s1 [v|e]]; cbn; [done|]. by intros [= ->].
Qed.
End AssertionClaims.



Lemma energy_asserts_nonnegative_witness :
  valid_mesh Reference.defective = true
  /\ star_term_spec Reference.defective false
     < integral_term_spec (QP := Reference.quadpy) Reference.defective false
  /\ energy (QP := Reference.quadpy) Reference.defective false
     = Raise AssertionError.
Proof.
  assert (Hv : valid_mesh Reference.defective = true)
    by (vm_compute; reflexivity).
  assert (Hlt : star_term_spec Reference.defective false
                < integral_term_spec (QP := Reference.quadpy)
                    Reference.defective false)
    by (vm_compute; reflexivity).
  split; [exact Hv|split; [exact Hlt|]].
  exact (proj1 (proj2 (energy_asserts_nonnegative
                         (QP := Reference.quadpy) (MP := Reference.meshplex)
                         Reference.defective false)) Hv Hlt).
Defined.

(** ** The gradient *)

Lemma grad_vals_eq (h : cell -> point) (cells : list cell)
    (ccs : list point) (vols : list num) :
  length ccs = length cells -> length vols = length cells ->
  zip_with pscale (zip_with psub (h <$> cells) ccs) vols
  = (fun b : cell * (point * num) => pscale (psub (h b.1) b.2.1) b.2.2)
      <$> zip cells (zip ccs vols).
Proof.
  revert ccs vols.
  induction cells as [|c cells IH]; intros [|cc ccs] [|v vols] Hc Hv;
    cbn in *; try done.
  f_equal. apply IH; lia.
Qed.

Lemma grad_slot_eq m grad s :
  valid_mesh m = true ->
  grad_slot m grad s
  = add_at padd grad
      ((slot s ∘ fst)
         <$> zip (cells_nodes m) (zip (cell_circumcenters m) (cell_volumes m)))
      ((fun b : cell * (point * num) =>
          pscale (psub (node_at (node_coords m) (slot s b.1)) b.2.1) b.2.2)
         <$> zip (cells_nodes m) (zip (cell_circumcenters m) (cell_volumes m))).
Proof.
  intros Hv. pose proof (valid_mesh_cells m Hv) as Hc.
  destruct (valid_mesh_lengths m Hv) as (Hvol & Hcc & _).
  unfold grad_slot. rewrite (take_ok pzero).
  2:{ apply Forall_fmap. eapply Forall_impl; [|exact Hc].
      intros c. apply slot_in_range. }
  cbn. rewrite map_map.
  rewrite zip_same_ok by (rewrite length_map; lia). cbn.
  rewrite zip_same_ok
    by (rewrite length_zip_with, length_map; lia). cbn.
  rewrite (list_fmap_compose fst (slot s)).
  rewrite fst_zip by (rewrite length_zip; lia).
  f_equal.
  apply (grad_vals_eq (fun c => node_at (node_coords m) (slot s c))); done.
Qed.

Lemma grad_loop_ok m :
  valid_mesh m = true ->
  grad_loop m
  = Ok (star_sum padd pzero fst
          (fun (b : cell * (point * num)) s =>
             pscale (psub (node_at (node_coords m) (slot s b.1)) b.2.1) b.2.2)
          (zip (cells_nodes m) (zip (cell_circumcenters m) (cell_volumes m)))
          <$> seq 0 (length (node_coords m))).
Proof.
  intros Hv. pose proof (valid_mesh_cells m Hv) as Hc. unfold grad_loop.
  etrans; [|apply (scatter_slots_ok padd pzero fst)].
  - rewrite grad_slot_eq by done.
    destruct (add_at _ _ _ _) as [g1|]; cbn; [|done].
    rewrite grad_slot_eq by done.
    destruct (add_at _ _ _ _) as [g2|]; cbn; [|done].
    by rewrite grad_slot_eq.
  - apply Forall_forall. intros [c v] Hin. cbn.
    apply list_elem_of_In, elem_of_zip_l, list_elem_of_In in Hin.
    by apply (proj1 (Forall_forall _ _) Hc).
Qed.

Lemma gradient_value m :
  valid_mesh m = true -> gradient m = Ok (jac_spec m).
Proof.
  intros Hv. destruct (valid_mesh_lengths m Hv) as (_ & _ & _ & Hmask).
  unfold gradient. rewrite grad_loop_ok by done. cbn.
  unfold get_mask. case_decide as Hl.
  - cbn. unfold jac_spec. do 3 f_equal.
    rewrite map_map. done.
  - exfalso. apply Hl. rewrite !length_map, length_seq. done.
Qed.

Section GradientClaims.
Context {MP : Meshplex}.

(** C3. Once [jac] has written [x] into the interior nodes and updated
    the mesh, on a valid mesh it returns, for every node, the sum over
    the cells and their three slots that hold the node of
    [(node_coord - cell_circumcenter) * cell_volume], scaled by 2/(d+1)
    with d = 2, restricted to the interior nodes in the order of
    [mesh.is_interior_node] and flattened. *)
Theorem jac_is_scaled_star_gradient x s s1 :
  (_ ← assign_interior x; modify_mesh update_values) s = (s1, Ok tt) ->
  valid_mesh (mesh s1) = true ->
  jac x s = (s1, Ok (jac_spec (mesh s1))).
Proof.
  unfold jac. unfold mbind at 1 2 3 4, ST_bind.
  destruct (assign_interior x s) as [s0 [[]|e]]; [|done].
  cbn. intros [= <-] Hv. unfold lift. by rewrite gradient_value.
Qed.
End GradientClaims.

Lemma jac_is_scaled_star_gradient_witness :
  let x := [Reference.q 1 1; Reference.q 3 4] in
  let s := {| mesh := Reference.square; step := 0; out := [] |} in
  let s1 := ((_ ← assign_interior x;
              modify_mesh (update_values (Meshplex := Reference.meshplex))) s).1 in
  (_ ← assign_interior x;
   modify_mesh (update_values (Meshplex := Reference.meshplex))) s = (s1, Ok tt)
  /\ valid_mesh (mesh s1) = true
  /\ jac (MP := Reference.meshplex) x s = (s1, Ok (jac_spec (mesh s1))).
Proof.
  cbv zeta.
  assert (H1 : (_ ← assign_interior [Reference.q 1 1; Reference.q 3 4];
                modify_mesh (update_values (Meshplex := Reference.meshplex)))
                 {| mesh := Reference.square; step := 0; out := [] |}
               = (((_ ← assign_interior [Reference.q 1 1; Reference.q 3 4];
                    modify_mesh (update_values (Meshplex := Reference.meshplex)))
                     {| mesh := Reference.square; step := 0; out := [] |}).1,
                  Ok tt))
    by (vm_compute; reflexivity).
  assert (H2 : valid_mesh
                 (mesh ((_ ← assign_interior [Reference.q 1 1; Reference.q 3 4];
                         modify_mesh
                           (update_values (Meshplex := Reference.meshplex)))
                          {| mesh := Reference.square; step := 0; out := [] |}).1)
               = true)
    by (vm_compute; reflexivity).
  split; [exact H1|split; [exact H2|]].
  exact (jac_is_scaled_star_gradient (MP := Reference.meshplex) _ _ _ H1 H2).
Defined.

(** ** The boundary substitution *)

Lemma put_ok {A} (d : A) (b a : list A) (idx : list nat) :
  Forall (fun i => (i < length a)%nat) idx ->
  put a idx ((fun i => default d (b !! i)) <$> idx)
  = Ok (imap (fun i x => if decide (i ∈ idx) then default d (b !! i) else x) a).
Proof.
  intros Hidx. revert a Hidx.
  induction idx as [|i idx IH]; intros a Hidx.
  - cbn. f_equal. apply list_eq. intros j. rewrite list_lookup_imap.
    destruct (a !! j); cbn; [|done]. case_decide as Hin; [|done].
    by apply not_elem_of_nil in Hin.
  - inversion_clear Hidx as [|? ? Hi Hidx']. rewrite fmap_cons. cbn [put].
    rewrite decide_True by done.
    rewrite IH by (by rewrite length_insert). f_equal.
    apply list_eq. intros j. rewrite !list_lookup_imap.
    destruct (decide (i = j)) as [<-|Hne].
    + rewrite list_lookup_insert_eq by done.
      destruct (lookup_lt_is_Some_2 a i Hi) as [x ->]. cbn.
      rewrite (decide_True (P := i ∈ i :: idx)) by left.
      by case_decide.
    + rewrite list_lookup_insert_ne by done.
      destruct (a !! j); cbn; [|done]. f_equal.
      case_decide as H1; case_decide as H2; try done.
      * exfalso. apply H2. by right.
      * apply elem_of_cons in H2 as [->|]; done.
Qed.

Lemma valid_mesh_edges m :
  valid_mesh m = true ->
  Forall (fun i => (i < length (cells_nodes m))%nat) (edges_cells_1 m).
Proof.
  unfold valid_mesh. rewrite !andb_true_iff.
  intros [_ He]. apply forallb_Forall in He.
  eapply Forall_impl; [|exact He]. intros i. cbn.
  by rewrite bool_decide_eq_true.
Qed.

Lemma edges_cells_sound_lookup m i c :
  edges_cells_sound m = true ->
  cells_nodes m !! i = Some c ->
  touches_boundary (cells_nodes m) c = bool_decide (i ∈ edges_cells_1 m).
Proof.
  unfold edges_cells_sound. intros Hs%forallb_Forall Hc.
  assert (Hin : In (i, c) (imap pair (cells_nodes m))).
  { apply list_elem_of_In, elem_of_lookup_imap. eauto. }
  apply (proj1 (Forall_forall _ _) Hs) in Hin. cbn in Hin.
  by apply bool_decide_eq_true in Hin.
Qed.

(** Lines 83-87 on a valid mesh: the mesh's own circumcenter array becomes
    the array of target points, which is also the value. *)
Lemma substitute_boundary_value m :
  valid_mesh m = true -> edges_cells_sound m = true ->
  substitute_boundary m
  = (set_cell_circumcenters m (target_points m), Ok (target_points m)).
Proof.
  intros Hv Hs. pose proof (valid_mesh_edges m Hv) as He.
  destruct (valid_mesh_lengths m Hv) as (_ & Hcc & Hbc & _).
  assert (put (cell_circumcenters m) (edges_cells_1 m)
            ((fun i => default pzero (cell_barycenters m !! i))
               <$> edges_cells_1 m)
          = Ok (target_points m)) as Hput.
  { rewrite put_ok by (by rewrite Hcc). f_equal. unfold target_points.
    apply list_eq. intros i.
    rewrite list_lookup_imap, lookup_zip_with, lookup_zip_with.
    destruct (cells_nodes m !! i) as [c|] eqn:Hc; cbn.
    - pose proof (lookup_lt_Some _ _ _ Hc) as Hlt.
      destruct (lookup_lt_is_Some_2 (cell_circumcenters m) i) as [x Hx];
        [lia|].
      destruct (lookup_lt_is_Some_2 (cell_barycenters m) i) as [y Hy];
        [lia|].
      rewrite Hx, Hy. cbn. rewrite (edges_cells_sound_lookup m i c) by done.
      by case_bool_decide; case_decide.
    - apply lookup_ge_None in Hc.
      rewrite (lookup_ge_None_2 (cell_circumcenters m)) by lia. done. }
  unfold substitute_boundary. unfold mbind, ST_bind, get, lift, modify, mret, ST_ret.
  rewrite (take_ok pzero) by (by rewrite Hbc).
  change (map ?g ?l) with (g <$> l). by rewrite Hput.
Qed.

Section RelocatorClaims.
Context {HP : Helpers}.

Lemma get_new_points_hands_target_points_aux m :
  valid_mesh m = true -> edges_cells_sound m = true ->
  get_new_points_uniform m
  = (set_cell_circumcenters m (target_points m),
     get_new_points_volume_averaged
       (set_cell_circumcenters m (target_points m)) (target_points m))
  /\ get_new_points_density_preserving m
     = (set_cell_circumcenters m (target_points m),
        get_new_points_count_averaged
          (set_cell_circumcenters m (target_points m)) (target_points m)).
Proof.
  intros Hv Hs.
  unfold get_new_points_uniform, get_new_points_density_preserving.
  unfold mbind at 1 3, ST_bind.
  rewrite substitute_boundary_value by done. done.
Qed.

(** C4. In both fixed-point variants [get_new_points], on a valid mesh
    whose [edges_cells[1]] lists the cells of the edges with exactly one
    incident cell, builds the per-cell target points: every cell's
    circumcenter, replaced by the cell's barycenter for every cell that
    touches the boundary. [fixed_point_uniform] hands this array to the
    volume-weighted averaging helper, [fixed_point_density_preserving] to
    the count-averaging helper. *)
Theorem get_new_points_hands_target_points m :
  valid_mesh m = true -> edges_cells_sound m = true ->
  (forall i c, cells_nodes m !! i = Some c ->
     target_points m !! i
     = if touches_boundary (cells_nodes m) c
       then cell_barycenters m !! i else cell_circumcenters m !! i)
  /\ (get_new_points_uniform m).2
     = get_new_points_volume_averaged (get_new_points_uniform m).1
         (target_points m)
  /\ (get_new_points_density_preserving m).2
     = get_new_points_count_averaged (get_new_points_density_preserving m).1
         (target_points m).
Proof.
  intros Hv Hs.
  destruct (get_new_points_hands_target_points_aux m Hv Hs) as [-> ->].
  split; [|done].
  intros i c Hc. destruct (valid_mesh_lengths m Hv) as (_ & Hcc & Hbc & _).
  pose proof (lookup_lt_Some _ _ _ Hc) as Hlt.
  destruct (lookup_lt_is_Some_2 (cell_circumcenters m) i) as [x Hx]; [lia|].
  destruct (lookup_lt_is_Some_2 (cell_barycenters m) i) as [y Hy]; [lia|].
  unfold target_points. rewrite !lookup_zip_with, Hc, Hx, Hy. cbn.
  by destruct (touches_boundary _ c).
Qed.
End RelocatorClaims.

Lemma get_new_points_hands_target_points_witness :
  valid_mesh Reference.kite = true
  /\ edges_cells_sound Reference.kite = true
  /\ (get_new_points_uniform (HP := Reference.helpers) Reference.kite).2
     = volume_averaged
         (get_new_points_uniform (HP := Reference.helpers) Reference.kite).1
         (target_points Reference.kite).
Proof.
  assert (Hv : valid_mesh Reference.kite = true) by (vm_compute; reflexivity).
  assert (Hs : edges_cells_sound Reference.kite = true)
    by (vm_compute; reflexivity).
  split; [exact Hv|split; [exact Hs|]].
  exact (proj1 (proj2 (get_new_points_hands_target_points
                         (HP := Reference.helpers) Reference.kite Hv Hs))).
Defined.

(** ** The effect of [get_new_points] on the mesh *)

Lemma target_points_length m :
  valid_mesh m = true -> length (target_points m) = length (cells_nodes m).
Proof.
  intros Hv. destruct (valid_mesh_lengths m Hv) as (_ & Hcc & Hbc & _).
  unfold target_points. rewrite length_zip_with, length_zip. lia.
Qed.

Lemma valid_mesh_set_circumcenters m t :
  length t = length (cell_circumcenters m) ->
  valid_mesh (set_cell_circumcenters m t) = valid_mesh m.
Proof. intros Hl. unfold valid_mesh. cbn. by rewrite Hl. Qed.

Lemma target_points_idempotent m :
  target_points (set_cell_circumcenters m (target_points m)) = target_points m.
Proof.
  unfold target_points at 1. cbn. apply list_eq. intros i.
  rewrite !lookup_zip_with. unfold target_points.
  rewrite !lookup_zip_with.
  destruct (cells_nodes m !! i) as [c|]; cbn; [|done].
  destruct (cell_circumcenters m !! i) as [x|]; cbn; [|done].
  destruct (cell_barycenters m !! i) as [y|]; cbn; [|done].
  by destruct (touches_boundary _ c).
Qed.

Section PurityClaims.
Context {HP : Helpers}.

(** C7 (as the code has it). On a valid mesh [get_new_points], in either
    variant, leaves the node coordinates, the connectivity, the cell
    volumes, the barycenters, the boundary-edge table and the interior
    mask of the mesh as they were, and its value is determined by them;
    but it overwrites the mesh's circumcenter array with the target
    points. A second call on the mesh it leaves returns the same value and
    changes nothing more. *)
Theorem get_new_points_overwrites_only_circumcenters m :
  valid_mesh m = true -> edges_cells_sound m = true ->
  forall gnp,
    gnp = get_new_points_uniform \/ gnp = get_new_points_density_preserving ->
    let m' := (gnp m).1 in
    node_coords m' = node_coords m
    /\ cells_nodes m' = cells_nodes m
    /\ cell_volumes m' = cell_volumes m
    /\ cell_barycenters m' = cell_barycenters m
    /\ edges_cells_1 m' = edges_cells_1 m
    /\ is_interior_node m' = is_interior_node m
    /\ cell_circumcenters m' = target_points m
    /\ gnp m' = (m', (gnp m).2).
Proof.
  intros Hv Hs gnp Hgnp m'.
  destruct (get_new_points_hands_target_points_aux m Hv Hs) as [H1 H2].
  assert (Hm' : m' = set_cell_circumcenters m (target_points m)).
  { unfold m'. destruct Hgnp as [-> | ->]; [by rewrite H1|by rewrite H2]. }
  clearbody m'. subst m'.
  set (m' := set_cell_circumcenters m (target_points m)) in *.
  assert (Hv' : valid_mesh m' = true).
  { unfold m'. rewrite valid_mesh_set_circumcenters; [done|].
    destruct (valid_mesh_lengths m Hv) as (_ & Hcc & _).
    by rewrite target_points_length, Hcc. }
  assert (Hs' : edges_cells_sound m' = true) by done.
  repeat split; try done.
  destruct (get_new_points_hands_target_points_aux m' Hv' Hs') as [H1' H2'].
  unfold m' in H1', H2'. rewrite target_points_idempotent in H1', H2'.
  destruct Hgnp as [-> | ->].
  - rewrite H1. cbn. exact H1'.
  - rewrite H2. cbn. exact H2'.
Qed.
End PurityClaims.

(** On the square, whose four cells all touch the boundary, the
    circumcenter array of the mesh is not what it was before the call. *)
Lemma get_new_points_changes_circumcenters :
  cell_circumcenters
    (get_new_points_uniform (HP := Reference.helpers) Reference.square).1
  <> cell_circumcenters Reference.square.
Proof.
  intros Heq. apply (f_equal (map as_Q)) in Heq.
  vm_compute in Heq. discriminate Heq.
Qed.

Lemma get_new_points_overwrites_only_circumcenters_witness :
  valid_mesh Reference.square = true
  /\ edges_cells_sound Reference.square = true
  /\ cell_circumcenters
       (get_new_points_uniform (HP := Reference.helpers) Reference.square).1
     = target_points Reference.square.
Proof.
  assert (Hv : valid_mesh Reference.square = true)
    by (vm_compute; reflexivity).
  assert (Hs : edges_cells_sound Reference.square = true)
    by (vm_compute; reflexivity).
  split; [exact Hv|split; [exact Hs|]].
  pose proof (get_new_points_overwrites_only_circumcenters
                (HP := Reference.helpers) Reference.square Hv Hs
                get_new_points_uniform (or_introl eq_refl)) as Hm.
  cbv zeta in Hm. exact (proj1 (proj2 (proj2 (proj2 (proj2 (proj2 (proj2 Hm))))))).
Defined.

(** ** Reasoning about stateful computations *)

Lemma triple_bind {S A B} (P : S -> Prop) (c : ST S A) (k : A -> ST S B)
    (Q : A -> S -> Prop) (R : B -> S -> Prop) (E : S -> Prop) :
  triple P c Q E -> (forall a, triple (Q a) (k a) R E) ->
  triple P (c ≫= k) R E.
Proof.
  intros Hc Hk s Hs. specialize (Hc s Hs). unfold mbind, ST_bind.
  destruct (c s) as [s' [a|e]]; [|done]. by apply Hk.
Qed.

Lemma triple_conseq {S A} (P P' : S -> Prop) (c : ST S A)
    (Q Q' : A -> S -> Prop) (E E' : S -> Prop) :
  triple P' c Q' E' ->
  (forall s, P s -> P' s) -> (forall a s, Q' a s -> Q a s) ->
  (forall s, E' s -> E s) ->
  triple P c Q E.
Proof.
  intros Hc HP HQ HE s Hs. specialize (Hc s (HP s Hs)).
  destruct (c s) as [s' [a|e]]; auto.
Qed.

Lemma keeps_bind {S A B} (I : S -> Prop) (c : ST S A) (k : A -> ST S B) :
  keeps I c -> (forall a, keeps I (k a)) -> keeps I (c ≫= k).
Proof. intros Hc Hk. by eapply triple_bind. Qed.

Lemma keeps_ret {S A} (I : S -> Prop) (a : A) : keeps I (mret a).
Proof. by intros s Hs. Qed.

Lemma keeps_lift {S A} (I : S -> Prop) (r : result A) : keeps I (lift r).
Proof. intros s Hs. unfold lift. by destruct r. Qed.

(** ** Boolean masks *)

Lemma length_fill {A} (mask : list bool) (a vals : list A) :
  length (fill mask a vals) = length a.
Proof.
  revert a vals. induction mask as [|b mask IH]; intros [|x a] vals; try done.
  cbn. destruct b; [destruct vals|]; cbn; by rewrite ?IH.
Qed.

Lemma lookup_fill_false {A} (mask : list bool) (a vals : list A) i :
  mask !! i = Some false -> fill mask a vals !! i = a !! i.
Proof.
  revert a vals i.
  induction mask as [|b mask IH]; intros [|x a] vals [|i] Hm; try done.
  - cbn in Hm. injection Hm as ->. done.
  - cbn in *. destruct b; [destruct vals|]; cbn; by rewrite ?IH.
Qed.

(** Writing back the rows a mask selects from [X] into an array that
    agrees with [X] elsewhere gives [X]. *)
Lemma fill_select {A} (mask : list bool) (a X : list A) :
  length mask = length a -> length a = length X ->
  (forall i, mask !! i = Some false -> a !! i = X !! i) ->
  fill mask a (select mask X) = X.
Proof.
  revert a X.
  induction mask as [|b mask IH]; intros [|x a] [|y X] Hm Ha Hag; try done.
  cbn in *. destruct b.
  - f_equal. apply IH; [lia|lia|]. intros i Hi. apply (Hag (S i) Hi).
  - f_equal.
    + specialize (Hag 0%nat eq_refl). by injection Hag.
    + apply IH; [lia|lia|]. intros i Hi. apply (Hag (S i) Hi).
Qed.

Lemma length_select {A} (mask : list bool) (X : list A) :
  length mask = length X -> length (select mask X) = count_true mask.
Proof.
  unfold count_true. revert X.
  induction mask as [|b mask IH]; intros [|y X] Hm; try done.
  cbn in Hm. destruct b; cbn [select].
  - rewrite filter_cons_True by done. cbn [length]. f_equal. apply IH. lia.
  - rewrite filter_cons_False by done. apply IH. lia.
Qed.

Lemma reshape2_flatten (rows : list point) :
  reshape2 (flatten rows) = Ok rows.
Proof.
  induction rows as [|[a b] rows IH]; [done|].
  change (flatten ((a, b) :: rows)) with (a :: b :: flatten rows).
  cbn [reshape2]. by rewrite IH.
Qed.

Lemma select_fill {A} (mask : list bool) (a vals : list A) :
  length mask = length a -> length vals = count_true mask ->
  select mask (fill mask a vals) = vals.
Proof.
  unfold count_true. revert a vals.
  induction mask as [|b mask IH]; intros [|y a] vals Hm Hv; cbn in Hm; try done.
  - by destruct vals.
  - destruct b.
    + rewrite filter_cons_True in Hv by done.
      destruct vals as [|v vals]; [done|]. cbn in *. f_equal. apply IH; lia.
    + rewrite filter_cons_False in Hv by done. cbn. apply IH; [lia|done].
Qed.

Lemma flatten_reshape2 (x : list num) (rows : list point) :
  reshape2 x = Ok rows -> flatten rows = x.
Proof.
  revert x. induction rows as [|r rows IH]; intros [|a [|b x]]; cbn;
    try done.
  - by destruct (reshape2 x).
  - destruct (reshape2 x) as [rows'|] eqn:Hx; cbn; [|done].
    intros [= <- <-]. cbn. f_equal. f_equal. by apply IH.
Qed.

Lemma put_mask_inv {A} (a : list A) mask vals coords :
  put_mask a mask vals = Ok coords ->
  length mask = length a /\ length vals = count_true mask
  /\ coords = fill mask a vals.
Proof. unfold put_mask. repeat case_decide; try done. by intros [= <-]. Qed.

(** ** Invariants of the optimizer's store *)

Lemma frame_put_mask X mask m rows coords :
  frame X mask m ->
  put_mask (node_coords m) (is_interior_node m) rows = Ok coords ->
  frame X mask (set_node_coords m coords).
Proof.
  intros (Hmask & Hlen & Hn & Hag). unfold put_mask.
  repeat case_decide; try done. intros [= <-].
  split; [done|]. split; [done|]. cbn. split.
  - by rewrite length_fill.
  - intros i Hi. rewrite lookup_fill_false by (by rewrite Hmask). by apply Hag.
Qed.

(** A property [I] of the store is kept by the closures when each kind of
    update keeps it: the masked write of coordinates, the recomputation of
    the derived arrays, a line of output, a new step count, the edge
    flips. *)
Section StoreInvariants.
Context {QP : Quadpy} {MP : Meshplex} {SP : Scipy}.
Variable I : state -> Prop.

Lemma keeps_get_mesh : keeps I get_mesh.
Proof. by intros s Hs. Qed.

Lemma keeps_get_step : keeps I get_step.
Proof. by intros s Hs. Qed.

Hypothesis I_write : forall s rows coords,
  I s ->
  put_mask (node_coords (mesh s)) (is_interior_node (mesh s)) rows = Ok coords ->
  I {| mesh := set_node_coords (mesh s) coords; step := step s; out := out s |}.
Hypothesis I_update : forall s,
  I s -> I {| mesh := update_values (mesh s); step := step s; out := out s |}.

Lemma keeps_assign_interior x : keeps I (assign_interior x).
Proof.
  intros s Hs. unfold assign_interior, mbind, ST_bind, lift, get_mesh.
  destruct (reshape2 x) as [rows|]; [|done].
  destruct (put_mask _ _ rows) as [coords|] eqn:Hput; [|done].
  cbn. by eapply I_write.
Qed.

Lemma keeps_update : keeps I (modify_mesh update_values).
Proof. intros s Hs. by apply I_update. Qed.

Lemma keeps_f x : keeps I (f x).
Proof.
  unfold f.
  apply keeps_bind; [apply keeps_assign_interior|intros _].
  apply keeps_bind; [apply keeps_update|intros _].
  apply keeps_bind; [apply keeps_get_mesh|intros m]. apply keeps_lift.
Qed.

Lemma keeps_jac x : keeps I (jac x).
Proof.
  unfold jac.
  apply keeps_bind; [apply keeps_assign_interior|intros _].
  apply keeps_bind; [apply keeps_update|intros _].
  apply keeps_bind; [apply keeps_get_mesh|intros m]. apply keeps_lift.
Qed.

(** A run of a minimizer that makes no step keeps [I] and returns the
    point it started from. *)
Lemma run_no_steps verbose fmt cb x0 m :
  no_steps x0 m ->
  triple I (run_minimizer verbose fmt cb m)
    (fun res s => res.1.1 = x0 /\ I s) (fun _ => True).
Proof.
  induction 1 as [nit success|e|x k _ IH|x k _ IH]; cbn [run_minimizer].
  - by intros s Hs.
  - by intros s Hs.
  - eapply triple_bind; [|exact IH].
    eapply triple_conseq; [apply keeps_f|done..].
  - eapply triple_bind; [|exact IH].
    eapply triple_conseq; [apply keeps_jac|done..].
Qed.

Hypothesis I_emit : forall s e,
  I s -> I {| mesh := mesh s; step := step s; out := out s ++ [e] |}.

Lemma keeps_emit e : keeps I (emit e).
Proof. intros s Hs. by apply I_emit. Qed.

Lemma keeps_print_energy_stats : keeps I print_energy_stats.
Proof.
  unfold print_energy_stats.
  apply keeps_bind; [apply keeps_get_mesh|intros m].
  apply keeps_bind; [apply keeps_lift|intros e]. apply keeps_emit.
Qed.

Variables (verbose fmt : bool) (cb : option (nat -> MeshTri -> result unit)).

Lemma keeps_call_callback k : keeps I (call_callback cb k).
Proof.
  unfold call_callback. destruct cb; [|apply keeps_ret].
  apply keeps_bind; [apply keeps_get_mesh|intros m].
  apply keeps_bind; [apply keeps_emit|intros _]. apply keeps_lift.
Qed.

Lemma keeps_save k : keeps I (save fmt k).
Proof.
  unfold save. destruct fmt; [|apply keeps_ret].
  apply keeps_bind; [apply keeps_get_mesh|intros m]. apply keeps_emit.
Qed.

Hypothesis I_step : forall s k,
  I s -> I {| mesh := mesh s; step := k; out := out s |}.

Lemma keeps_set_step k : keeps I (set_step k).
Proof. intros s Hs. by apply I_step. Qed.

Lemma keeps_prologue Y : keeps I (prologue fmt cb Y).
Proof.
  unfold prologue.
  apply keeps_bind; [apply keeps_save|intros _].
  apply keeps_bind; [apply keeps_emit|intros _].
  apply keeps_bind; [apply keeps_print_energy_stats|intros _].
  apply keeps_bind; [apply keeps_set_step|intros _].
  apply keeps_bind; [apply keeps_get_mesh|intros m].
  apply keeps_bind; [apply keeps_lift|intros rows].
  apply keeps_bind; [apply keeps_call_callback|intros _]. apply keeps_ret.
Qed.

Hypothesis I_flip : forall s,
  I s ->
  I {| mesh := flip_until_delaunay (mesh s); step := step s; out := out s |}.

Lemma keeps_flip : keeps I (modify_mesh flip_until_delaunay).
Proof. intros s Hs. by apply I_flip. Qed.

Lemma keeps_flip_delaunay x : keeps I (flip_delaunay verbose fmt cb x).
Proof.
  unfold flip_delaunay.
  apply keeps_bind; [apply keeps_get_step|intros k].
  apply keeps_bind; [apply keeps_set_step|intros _].
  apply keeps_bind; [apply keeps_assign_interior|intros _].
  apply keeps_bind; [apply keeps_update|intros _].
  apply keeps_bind; [apply keeps_flip|intros _].
  apply keeps_bind; [apply keeps_get_step|intros k'].
  apply keeps_bind; [apply keeps_save|intros _].
  apply keeps_bind.
  - destruct verbose; [|apply keeps_ret].
    apply keeps_bind; [apply keeps_emit|intros _].
    apply keeps_bind; [apply keeps_f|intros e].
    apply keeps_bind; [apply keeps_get_mesh|intros m]. apply keeps_emit.
  - intros _. apply keeps_bind; [apply keeps_get_step|intros k''].
    apply keeps_call_callback.
Qed.

Lemma keeps_run_minimizer m : keeps I (run_minimizer verbose fmt cb m).
Proof.
  induction m as [x nit success|e|x k IH|x k IH|x k IH]; cbn [run_minimizer].
  - apply keeps_ret.
  - apply keeps_lift.
  - apply keeps_bind; [apply keeps_f|done].
  - apply keeps_bind; [apply keeps_jac|done].
  - apply keeps_bind; [apply keeps_flip_delaunay|done].
Qed.

(** The pair [final_flip] returns is read off the mesh it leaves. *)
Lemma final_flip_triple x nit :
  triple I (final_flip x nit)
    (fun r s => r = (node_coords (mesh s), cells_nodes (mesh s)) /\ I s) I.
Proof.
  unfold final_flip.
  eapply triple_bind; [apply keeps_assign_interior|intros ?].
  eapply triple_bind; [apply keeps_update|intros ?].
  eapply triple_bind; [apply keeps_flip|intros ?].
  eapply triple_bind; [apply keeps_emit|intros ?].
  eapply triple_bind; [apply keeps_print_energy_stats|intros ?].
  eapply triple_bind; [apply keeps_emit|intros ?].
  by intros s Hs.
Qed.

Lemma nonlinear_body_triple Y tol n :
  triple I (nonlinear_body verbose fmt cb Y tol n)
    (fun r s => r = (node_coords (mesh s), cells_nodes (mesh s)) /\ I s) I.
Proof.
  unfold nonlinear_body.
  eapply triple_bind; [apply keeps_prologue|intros x0].
  eapply triple_bind; [apply keeps_run_minimizer|intros [[x nit] success]].
  apply final_flip_triple.
Qed.
End StoreInvariants.

Section FrameFacts.
Context {MP : Meshplex} {ML : MeshplexLaws MP}.
Variables (X : list point) (mask : list bool).

Lemma frame_update m : frame X mask m -> frame X mask (update_values m).
Proof.
  intros (Hmask & Hlen & Hn & Hag). unfold frame.
  by rewrite update_mask, update_node_coords.
Qed.

Lemma frame_flip m : frame X mask m -> frame X mask (flip_until_delaunay m).
Proof.
  intros (Hmask & Hlen & Hn & Hag). unfold frame.
  by rewrite flip_mask, flip_node_coords.
Qed.
End FrameFacts.

Section RelocatorFrame.
Context {MP : Meshplex} {HP : Helpers} {ML : MeshplexLaws MP}.
Variables (X : list point) (mask : list bool).

Lemma keeps_substitute_boundary : keeps (frame X mask) substitute_boundary.
Proof.
  intros s Hs.
  unfold substitute_boundary, mbind, ST_bind, lift, get, modify, mret, ST_ret.
  destruct (take _ _) as [vals|]; [|done].
  by destruct (put _ _ vals) as [cc|].
Qed.

Lemma keeps_get_new_points_uniform :
  keeps (frame X mask) get_new_points_uniform.
Proof.
  unfold get_new_points_uniform.
  apply keeps_bind; [apply keeps_substitute_boundary|intros cc].
  apply keeps_bind; [by intros s Hs|intros m]. apply keeps_lift.
Qed.

Lemma keeps_get_new_points_density_preserving :
  keeps (frame X mask) get_new_points_density_preserving.
Proof.
  unfold get_new_points_density_preserving.
  apply keeps_bind; [apply keeps_substitute_boundary|intros cc].
  apply keeps_bind; [by intros s Hs|intros m]. apply keeps_lift.
Qed.

Lemma keeps_try_step original new alpha :
  keeps (frame X mask) (try_step original new alpha).
Proof.
  intros s Hs. unfold try_step, mbind, ST_bind, lift, get, modify.
  destruct (zip_same _ original new) as [xnew|]; [|done].
  destruct (put_mask _ _ xnew) as [coords|] eqn:Hput; [|done].
  cbn. apply frame_update. by eapply frame_put_mask.
Qed.

Lemma keeps_damp halvings orient original new alpha :
  keeps (frame X mask) (damp halvings orient original new alpha).
Proof.
  revert alpha. induction halvings as [|h IH]; intros alpha; cbn [damp].
  - apply keeps_bind; [apply keeps_try_step|intros _].
    apply keeps_bind; [by intros s Hs|intros m].
    apply keeps_bind; [apply keeps_lift|intros o].
    case_bool_decide; [apply keeps_ret|].
    apply keeps_bind; [apply keeps_try_step|intros _]. apply keeps_ret.
  - apply keeps_bind; [apply keeps_try_step|intros _].
    apply keeps_bind; [by intros s Hs|intros m].
    apply keeps_bind; [apply keeps_lift|intros o].
    case_bool_decide; [apply keeps_ret|apply IH].
Qed.

Lemma keeps_runner gnp tol n :
  keeps (frame X mask) gnp -> keeps (frame X mask) (runner gnp tol n).
Proof.
  intros Hg. unfold runner. induction n as [|n IH]; cbn [runner_loop].
  - apply keeps_ret.
  - apply keeps_bind; [exact Hg|intros new].
    apply keeps_bind; [by intros s Hs|intros m].
    apply keeps_bind; [apply keeps_lift|intros o].
    apply keeps_bind; [apply keeps_lift|intros c].
    apply keeps_bind; [apply keeps_damp|intros alpha].
    apply keeps_bind; [apply keeps_lift|intros [|]]; [apply keeps_ret|exact IH].
Qed.
End RelocatorFrame.

Lemma frame_init {MP : Meshplex} {ML : MeshplexLaws MP} X cells :
  frame X (is_interior_node (MeshTri_init X cells)) (MeshTri_init X cells).
Proof.
  unfold frame. rewrite init_mask_length, init_node_coords. done.
Qed.

Lemma frame_boundary_fixed {MP : Meshplex} X cells m :
  frame X (is_interior_node (MeshTri_init X cells)) m ->
  boundary_fixed X cells (node_coords m).
Proof. intros (_ & _ & Hn & Hag). by split. Qed.

Section FrameClaims.
Context {QP : Quadpy} {MP : Meshplex} {SP : Scipy} {HP : Helpers}.
Context {ML : MeshplexLaws MP}.

(** C6. Whatever the number of iterations, the points returned by either
    Relocator and by the Optimizer have the boundary nodes of the input
    unchanged: every coordinate write goes through the mask
    [mesh.is_interior_node], which stays the one made when the mesh was
    built. For the Optimizer the mesh is in this state at the end of
    every run, also one that an exception ends. *)
Theorem boundary_nodes_are_never_written X cells tol n :
  (forall pts cls,
     fixed_point_uniform X cells tol n = Ok (pts, cls) ->
     boundary_fixed X cells pts)
  /\ (forall pts cls,
        fixed_point_density_preserving X cells tol n = Ok (pts, cls) ->
        boundary_fixed X cells pts)
  /\ (forall verbose fmt cb,
        let run := nonlinear_optimization_uniform verbose fmt cb X cells tol n in
        boundary_fixed X cells (node_coords (mesh run.1))
        /\ forall pts cls, run.2 = Ok (pts, cls) -> boundary_fixed X cells pts).
Proof.
  pose proof (frame_init X cells) as Hinit.
  split; [|split].
  - intros pts cls. unfold fixed_point_uniform.
    pose proof (keeps_runner X _ get_new_points_uniform tol n
                  (keeps_get_new_points_uniform X _) _ Hinit) as Hk.
    destruct (runner _ tol n _) as [m [[]|e]]; [|done].
    intros [= <- <-]. by apply frame_boundary_fixed.
  - intros pts cls. unfold fixed_point_density_preserving.
    pose proof (keeps_runner X _ get_new_points_density_preserving tol n
                  (keeps_get_new_points_density_preserving X _) _ Hinit) as Hk.
    destruct (runner _ tol n _) as [m [[]|e]]; [|done].
    intros [= <- <-]. by apply frame_boundary_fixed.
  - intros verbose fmt cb run. unfold run, nonlinear_optimization_uniform.
    pose proof (nonlinear_body_triple (on_mesh (frame X _))
                  (fun s => frame_put_mask X _ (mesh s))
                  (fun s => frame_update X _ (mesh s))
                  (fun s e H => H) verbose fmt cb (fun s k H => H)
                  (fun s => frame_flip X _ (mesh s)) X tol n
                  (initial_state X cells) Hinit) as Hk.
    destruct (nonlinear_body _ _ _ X tol n _) as [s [[pts cls]|e]]; cbn.
    + destruct Hk as [[= -> ->] Hf]. split.
      * by apply frame_boundary_fixed.
      * intros ? ? [= <- <-]. by apply frame_boundary_fixed.
    + split; [by apply frame_boundary_fixed|done].
Qed.
End FrameClaims.

Lemma boundary_nodes_are_never_written_witness :
  match fixed_point_uniform (MP := Reference.meshplex) (HP := Reference.helpers)
          Reference.square_points Reference.square_cells
          (Reference.q 1 100) 3 with
  | Ok (pts, _) =>
      boundary_fixed (MP := Reference.meshplex)
        Reference.square_points Reference.square_cells pts
  | Raise _ => False
  end.
Proof.
  destruct (fixed_point_uniform Reference.square_points Reference.square_cells
              (Reference.q 1 100) 3) as [[pts cls]|e] eqn:Hrun.
  - exact (proj1 (boundary_nodes_are_never_written
                    (QP := Reference.quadpy) (SP := Reference.scipy)
                    (ML := Reference.meshplex_laws)
                    Reference.square_points Reference.square_cells
                    (Reference.q 1 100) 3) pts cls Hrun).
  - vm_compute in Hrun. discriminate Hrun.
Defined.

(** ** Runs without a step *)

Section ZeroSteps.
Context {QP : Quadpy} {MP : Meshplex} {SP : Scipy} {HP : Helpers}.
Context {ML : MeshplexLaws MP} {SL : ScipyLaws SP}.

Lemma untouched_write X cells mask m rows coords :
  untouched X cells mask m ->
  put_mask (node_coords m) (is_interior_node m) rows = Ok coords ->
  untouched X cells mask (set_node_coords m coords).
Proof. intros [Hf Hc] Hput. split; [by eapply frame_put_mask|done]. Qed.

Lemma untouched_update X cells mask m :
  untouched X cells mask m -> untouched X cells mask (update_values m).
Proof.
  intros [Hf Hc]. split; [by apply frame_update|by rewrite update_cells].
Qed.

#[local] Opaque energy.

Lemma prologue_value fmt cb Y s s' x0 :
  prologue fmt cb Y s = (s', Ok x0) ->
  x0 = flatten (select (is_interior_node (mesh s)) Y) /\ mesh s' = mesh s.
Proof.
  unfold prologue, save, print_energy_stats, call_callback.
  unfold mbind, ST_bind, get_mesh, emit, set_step, modify, lift, mret, ST_ret.
  unfold get_mask.
  destruct fmt; cbn;
    (destruct (energy (mesh s) uniform_density_default); cbn; [|done]);
    (case_decide; cbn; [|done]);
    (destruct cb as [c|]; cbn; [destruct (c _ _); cbn|]);
    try done; by intros [= <- <-].
Qed.

(** Writing back the start point of the minimizer restores [X]. *)
Lemma final_flip_restores X cells mask nit s s' pts cls :
  untouched X cells mask (mesh s) ->
  final_flip (flatten (select mask X)) nit s = (s', Ok (pts, cls)) ->
  pts = X
  /\ exists m, node_coords m = X /\ cells_nodes m = cells
               /\ cls = cells_nodes (flip_until_delaunay m).
Proof.
  intros [(Hmask & Hlen & Hn & Hag) Hc].
  unfold final_flip, assign_interior, print_energy_stats.
  unfold mbind, ST_bind, get_mesh, emit, modify_mesh, modify, lift, mret, ST_ret.
  rewrite reshape2_flatten. unfold put_mask. rewrite Hmask.
  rewrite decide_True by lia.
  rewrite decide_True by (by rewrite length_select).
  rewrite fill_select by (done || lia). cbn.
  destruct (energy _ uniform_density_default); cbn; [|done].
  intros [= <- <- <-]. rewrite flip_node_coords, update_node_coords. cbn.
  split; [done|].
  exists (update_values (set_node_coords (mesh s) X)).
  by rewrite update_node_coords, update_cells.
Qed.

#[local] Transparent energy.

(** C5 (as the code has it). Called with [max_num_steps = 0], each of the
    three entry points returns the input points unchanged. The two
    fixed-point entry points also return the input cells. What
    [nonlinear_optimization_uniform] returns as cells is what its last
    edge flip makes of the input triangulation. *)
Theorem zero_steps_return_the_input_points X cells tol :
  fixed_point_uniform X cells tol 0 = Ok (X, cells)
  /\ fixed_point_density_preserving X cells tol 0 = Ok (X, cells)
  /\ (forall verbose fmt cb s pts cls,
        nonlinear_optimization_uniform verbose fmt cb X cells tol 0
        = (s, Ok (pts, cls)) ->
        pts = X
        /\ exists m, node_coords m = X /\ cells_nodes m = cells
                     /\ cls = cells_nodes (flip_until_delaunay m)).
Proof.
  split; [|split].
  - unfold fixed_point_uniform. cbn. by rewrite init_node_coords, init_cells.
  - unfold fixed_point_density_preserving. cbn.
    by rewrite init_node_coords, init_cells.
  - intros verbose fmt cb s pts cls.
    unfold nonlinear_optimization_uniform, nonlinear_body.
    set (s0 := initial_state X cells).
    set (mask := is_interior_node (MeshTri_init X cells)).
    assert (H0 : untouched X cells mask (mesh s0)).
    { split; [apply frame_init|apply init_cells]. }
    unfold mbind at 1, ST_bind.
    pose proof (keeps_prologue (on_mesh (untouched X cells mask))
                  (fun s e H => H) fmt cb (fun s k H => H) X s0 H0) as Hp.
    destruct (prologue fmt cb X s0) as [s1 [x0|e]] eqn:Hpro; [|done].
    apply prologue_value in Hpro as [-> _]. fold mask.
    unfold mbind at 1, ST_bind.
    pose proof (run_no_steps (on_mesh (untouched X cells mask))
                  (fun s => untouched_write X cells mask (mesh s))
                  (fun s => untouched_update X cells mask (mesh s))
                  verbose fmt cb _ _
                  (maxiter_zero (flatten (select mask X)) tol) s1 Hp) as Hr.
    destruct (run_minimizer _ _ _ _ s1) as [s2 [[[x nit] success]|e]]; [|done].
    destruct Hr as [Hx H2]. cbn in Hx. subst x.
    by apply final_flip_restores.
Qed.
End ZeroSteps.

(** On the kite the edge between nodes 0 and 1 is not Delaunay: with
    [max_num_steps = 0] the cells returned are not the cells given. *)
Lemma zero_steps_flip_the_kite :
  snd <$> (nonlinear_optimization_uniform
             (QP := Reference.quadpy) (MP := Reference.meshplex)
             (SP := Reference.scipy) false false None
             Reference.kite_points Reference.kite_cells (Reference.q 1 100) 0).2
  = Ok [(0, 5, 4); (1, 2, 4); (2, 3, 4); (3, 0, 4); (5, 1, 4)]%nat
  /\ [(0, 5, 4); (1, 2, 4); (2, 3, 4); (3, 0, 4); (5, 1, 4)]%nat
     <> Reference.kite_cells.
Proof. split; [vm_compute; reflexivity|discriminate]. Qed.

Lemma zero_steps_return_the_input_points_witness :
  match (nonlinear_optimization_uniform
           (QP := Reference.quadpy) (MP := Reference.meshplex)
           (SP := Reference.scipy) false false None
           Reference.kite_points Reference.kite_cells (Reference.q 1 100) 0).2
  with
  | Ok (pts, cls) =>
      pts = Reference.kite_points
      /\ exists m, node_coords m = Reference.kite_points
                   /\ cells_nodes m = Reference.kite_cells
                   /\ cls = cells_nodes
                              (flip_until_delaunay (Meshplex := Reference.meshplex) m)
  | Raise _ => False
  end.
Proof.
  destruct (nonlinear_optimization_uniform false false None
              Reference.kite_points Reference.kite_cells (Reference.q 1 100) 0)
    as [s [[pts cls]|e]] eqn:Hrun; cbn [snd].
  - exact (proj2 (proj2 (zero_steps_return_the_input_points
                           (QP := Reference.quadpy) (HP := Reference.helpers)
                           (ML := Reference.meshplex_laws)
                           (SL := Reference.scipy_laws)
                           Reference.kite_points Reference.kite_cells
                           (Reference.q 1 100)))
             false false None s pts cls Hrun).
  - vm_compute in Hrun. discriminate Hrun.
Defined.

(** ** The run of the optimizer, phase by phase *)

#[local] Opaque energy.

Section OptimizerRun.
Context {QP : Quadpy} {MP : Meshplex} {SP : Scipy}.
Variables (verbose fmt : bool) (cb : option (nat -> MeshTri -> result unit)).

(** A run that returns went through its three phases. *)
Lemma nonlinear_run_inv X cells tol n s r :
  nonlinear_optimization_uniform verbose fmt cb X cells tol n = (s, Ok r) ->
  exists s0 x0 s1 x nit success,
    prologue fmt cb X (initial_state X cells) = (s0, Ok x0)
    /\ run_minimizer verbose fmt cb (minimize_bfgs x0 tol n) s0
       = (s1, Ok (x, nit, success))
    /\ final_flip x nit s1 = (s, Ok r).
Proof.
  unfold nonlinear_optimization_uniform, nonlinear_body.
  unfold mbind at 1, ST_bind.
  destruct (prologue _ _ _ _) as [s0 [x0|e]] eqn:Hp; [|done].
  unfold mbind at 1, ST_bind.
  destruct (run_minimizer _ _ _ _ s0) as [s1 [[[x nit] success]|e]] eqn:Hr;
    [|done].
  intros Hf. by exists s0, x0, s1, x, nit, success.
Qed.

Lemma prologue_out X s s' x0 :
  prologue fmt cb X s = (s', Ok x0) ->
  exists e0,
    energy (mesh s) uniform_density_default = Ok e0
    /\ out s' = out s ++ (if fmt then [Save 0 (mesh s)] else [])
                      ++ [PrintBefore; PrintStats (mesh s) e0]
                      ++ (if cb is Some _ then [Callback 0 (mesh s)] else [])
    /\ step s' = 0%nat /\ mesh s' = mesh s.
Proof.
  unfold prologue, save, print_energy_stats, call_callback.
  unfold mbind, ST_bind, get_mesh, emit, set_step, modify, lift, mret, ST_ret.
  unfold get_mask.
  destruct fmt; cbn;
    (destruct (energy (mesh s) uniform_density_default) as [e0|]; cbn; [|done]);
    (case_decide; cbn; [|done]);
    (destruct cb as [c|]; cbn; [destruct (c _ _); cbn|]);
    try done; intros [= <- <-]; exists e0; cbn;
    rewrite <-?app_assoc; done.
Qed.

Lemma final_flip_inv x nit s1 s r :
  final_flip x nit s1 = (s, Ok r) ->
  exists rows coords e,
    reshape2 x = Ok rows
    /\ put_mask (node_coords (mesh s1)) (is_interior_node (mesh s1)) rows
       = Ok coords
    /\ mesh s = flip_until_delaunay
                  (update_values (set_node_coords (mesh s1) coords))
    /\ energy (mesh s) uniform_density_default = Ok e
    /\ step s = step s1
    /\ out s = out s1 ++ [PrintFinal nit; PrintStats (mesh s) e; PrintBlank]
    /\ r = (node_coords (mesh s), cells_nodes (mesh s)).
Proof.
  unfold final_flip, assign_interior, print_energy_stats.
  unfold mbind, ST_bind, get_mesh, emit, modify_mesh, modify, lift, mret, ST_ret.
  destruct (reshape2 x) as [rows|]; [|done].
  destruct (put_mask _ _ rows) as [coords|] eqn:Hput; [|done]. cbn.
  destruct (energy _ uniform_density_default) as [e|] eqn:He; cbn; [|done].
  intros [= <- <-]. exists rows, coords, e. cbn.
  rewrite <-!app_assoc. done.
Qed.
End OptimizerRun.

Lemma callbacks_app l1 l2 : callbacks (l1 ++ l2) = callbacks l1 ++ callbacks l2.
Proof. unfold callbacks. apply flat_map_app. Qed.

Section OptimizerFacts.
Context {QP : Quadpy} {MP : Meshplex} {SP : Scipy}.

Lemma final_flip_value x nit s1 rows coords e :
  reshape2 x = Ok rows ->
  put_mask (node_coords (mesh s1)) (is_interior_node (mesh s1)) rows
  = Ok coords ->
  energy (flip_until_delaunay
            (update_values (set_node_coords (mesh s1) coords)))
         uniform_density_default = Ok e ->
  final_flip x nit s1
  = (let m := flip_until_delaunay
                (update_values (set_node_coords (mesh s1) coords)) in
     ({| mesh := m; step := step s1;
         out := out s1 ++ [PrintFinal nit; PrintStats m e; PrintBlank] |},
      Ok (node_coords m, cells_nodes m))).
Proof.
  intros Hrows Hput He.
  unfold final_flip, assign_interior, print_energy_stats.
  unfold mbind, ST_bind, get_mesh, emit, modify_mesh, modify, lift, mret, ST_ret.
  rewrite Hrows, Hput. cbn. rewrite He. cbn. by rewrite <-!app_assoc.
Qed.

(** The objective writes, updates and evaluates the energy of the
    uniform density. *)
Lemma f_value x s s1 :
  (_ ← assign_interior x; modify_mesh update_values) s = (s1, Ok tt) ->
  f x s = (s1, energy (mesh s1) true).
Proof.
  unfold f. unfold mbind at 1 2 3 4, ST_bind.
  destruct (assign_interior x s) as [s' [[]|e]]; [|done].
  cbn. by intros [= <-].
Qed.

(** The output of a run only grows. *)
Lemma run_minimizer_extends verbose fmt cb m s s' res :
  run_minimizer verbose fmt cb m s = (s', Ok res) ->
  exists mid, out s' = out s ++ mid.
Proof.
  intros Hr.
  pose proof (keeps_run_minimizer (fun t => exists mid, out t = out s ++ mid))
    as Hk.
  specialize (Hk (fun t rows coords H _ => H) (fun t H => H)).
  assert (Hemit : forall (t : state) (e : event),
            (exists mid, out t = out s ++ mid) ->
            exists mid, out t ++ [e] = out s ++ mid).
  { intros t e [mid ->]. exists (mid ++ [e]). by rewrite app_assoc. }
  specialize (Hk Hemit verbose fmt cb (fun t k H => H) (fun t H => H) m s).
  rewrite Hr in Hk. apply Hk. exists []. by rewrite app_nil_r.
Qed.

(** One call of [flip_delaunay] counts one step and calls the callback
    once, with the new count. *)
Lemma flip_delaunay_callback verbose fmt c x s s' :
  flip_delaunay verbose fmt (Some c) x s = (s', Ok tt) ->
  step s' = S (step s)
  /\ callbacks (out s') = callbacks (out s) ++ [(S (step s), mesh s')].
Proof.
  unfold flip_delaunay, f, assign_interior, save, call_callback.
  unfold mbind, ST_bind, get_mesh, get_step, set_step, emit, modify_mesh,
    modify, lift, mret, ST_ret.
  destruct (reshape2 x) as [rows|]; [|done].
  destruct (put_mask _ _ rows) as [coords|]; [|done]. cbn.
  destruct fmt, verbose; cbn;
    repeat match goal with
      | |- context [match put_mask ?a ?m ?r with _ => _ end] =>
          destruct (put_mask a m r); cbn; [|done]
      | |- context [match energy ?m ?u with _ => _ end] =>
          destruct (energy m u); cbn; [|done]
      | |- context [match c ?k ?m with _ => _ end] =>
          destruct (c k m) as [[]|]; cbn; [|done]
      end;
    intros [= <-]; cbn; rewrite Nat.add_1_r; (split; [done|]);
    rewrite !callbacks_app; cbn; by rewrite ?app_nil_r.
Qed.
End OptimizerFacts.

Section CallbackFacts.
Context {QP : Quadpy} {MP : Meshplex} {SP : Scipy}.

Lemma run_minimizer_callbacks verbose fmt c m0 m s s' res :
  run_minimizer verbose fmt (Some c) m s = (s', Ok res) ->
  called_each_step m0 s -> called_each_step m0 s'.
Proof.
  revert s.
  induction m as [x nit success|e|x k IH|x k IH|x k IH]; intros s;
    cbn [run_minimizer]; unfold mbind, ST_bind.
  - by intros [= <- _].
  - done.
  - pose proof (keeps_f (called_each_step m0)
                  (fun t rows coords H _ => H) (fun t H => H) x s) as Hk.
    destruct (f x s) as [s1 [v|e]]; [|done].
    intros Hr HJ. by apply (IH v s1 Hr), Hk.
  - pose proof (keeps_jac (called_each_step m0)
                  (fun t rows coords H _ => H) (fun t H => H) x s) as Hk.
    destruct (jac x s) as [s1 [g|e]]; [|done].
    intros Hr HJ. by apply (IH g s1 Hr), Hk.
  - destruct (flip_delaunay verbose fmt (Some c) x s) as [s1 [[]|e]] eqn:Hfd;
      [|done].
    intros Hr [[rest Hrest] Hidx]. apply (IH s1 Hr).
    apply flip_delaunay_callback in Hfd as [Hstep Hcb]. split.
    + exists (rest ++ [(S (step s), mesh s1)]). by rewrite Hcb, Hrest.
    + rewrite Hcb, map_app, Hidx, Hstep. cbn [map fst].
      by rewrite (seq_S (S (step s))).
Qed.

(** Along a run that returns, every accepted step counts once and calls
    the callback once, with the running count. *)
Lemma run_minimizer_steps verbose fmt c m s s' res :
  run_minimizer verbose fmt (Some c) m s = (s', Ok res) ->
  step s' = (step s + length (accepted_steps verbose fmt (Some c) m s))%nat
  /\ map fst (callbacks (out s'))
     = map fst (callbacks (out s))
       ++ seq (S (step s)) (length (accepted_steps verbose fmt (Some c) m s)).
Proof.
  revert s.
  induction m as [x nit success|e|x k IH|x k IH|x k IH]; intros s;
    cbn [run_minimizer accepted_steps]; unfold mbind, ST_bind.
  - intros [= <- _]. cbn. by rewrite Nat.add_0_r, app_nil_r.
  - done.
  - pose proof (keeps_f (fun t => step t = step s /\ out t = out s)
                  (fun t rows coords H _ => H) (fun t H => H) x s
                  (conj eq_refl eq_refl)) as Hk.
    destruct (f x s) as [s1 [v|e]]; [|done]. destruct Hk as [Hst Hout].
    intros Hr. apply IH in Hr. by rewrite Hst, Hout in Hr.
  - pose proof (keeps_jac (fun t => step t = step s /\ out t = out s)
                  (fun t rows coords H _ => H) (fun t H => H) x s
                  (conj eq_refl eq_refl)) as Hk.
    destruct (jac x s) as [s1 [g|e]]; [|done]. destruct Hk as [Hst Hout].
    intros Hr. apply IH in Hr. by rewrite Hst, Hout in Hr.
  - destruct (flip_delaunay verbose fmt (Some c) x s) as [s1 [[]|e]] eqn:Hfd;
      [|done].
    intros Hr. apply IH in Hr as [Hst Hcb].
    apply flip_delaunay_callback in Hfd as [Hstep Hcall].
    rewrite Hst, Hcb, Hcall, Hstep, map_app. cbn [map fst length seq].
    split; [lia|]. by rewrite <-app_assoc.
Qed.
End CallbackFacts.

Section MaskFacts.
Context {QP : Quadpy} {MP : Meshplex} {SP : Scipy} {ML : MeshplexLaws MP}.

(** The interior mask of the mesh is the one it was built with, through
    the whole run. *)
Lemma mask_is_kept verbose fmt cb X cells tol n s0 x0 s1 res :
  prologue fmt cb X (initial_state X cells) = (s0, Ok x0) ->
  run_minimizer verbose fmt cb (minimize_bfgs x0 tol n) s0 = (s1, Ok res) ->
  is_interior_node (mesh s1) = is_interior_node (MeshTri_init X cells).
Proof.
  intros Hp Hr.
  set (I := on_mesh (fun m => is_interior_node m
                              = is_interior_node (MeshTri_init X cells))).
  assert (Hw : forall t rows coords, I t ->
            put_mask (node_coords (mesh t)) (is_interior_node (mesh t)) rows
            = Ok coords ->
            I {| mesh := set_node_coords (mesh t) coords;
                 step := step t; out := out t |}) by (by intros).
  assert (Hu : forall t, I t ->
            I {| mesh := update_values (mesh t);
                 step := step t; out := out t |}).
  { intros t Ht. unfold I, on_mesh in *. cbn. by rewrite update_mask. }
  assert (Hf : forall t, I t ->
            I {| mesh := flip_until_delaunay (mesh t);
                 step := step t; out := out t |}).
  { intros t Ht. unfold I, on_mesh in *. cbn. by rewrite flip_mask. }
  pose proof (keeps_prologue I (fun t e H => H) fmt cb (fun t k H => H) X
                (initial_state X cells) eq_refl) as H0.
  rewrite Hp in H0.
  pose proof (keeps_run_minimizer I Hw Hu (fun t e H => H) verbose fmt cb
                (fun t k H => H) Hf (minimize_bfgs x0 tol n) s0 H0) as H1.
  by rewrite Hr in H1.
Qed.
End MaskFacts.

(** ** The optimizer *)

#[local] Transparent energy.

Section TerminationClaim.
Context {QP : Quadpy} {MP : Meshplex} {SP : Scipy} {ML : MeshplexLaws MP}.

(** C8. Whether the minimizer reports convergence or stopped at the
    iteration cap ([success] is either value), the function goes on:
    it writes the minimizer's final iterate into the interior nodes,
    recomputes the geometry, runs one more pass of edge flips, prints the
    final statistics and returns the points and cells of the mesh so
    obtained. In the returned points the interior nodes, read through
    the interior mask and flattened, are that iterate. *)
Theorem minimizer_termination_is_accepted verbose fmt cb X cells tol n
    s0 x0 s1 x nit (success : bool) rows coords e :
  prologue fmt cb X (initial_state X cells) = (s0, Ok x0) ->
  run_minimizer verbose fmt cb (minimize_bfgs x0 tol n) s0
  = (s1, Ok (x, nit, success)) ->
  reshape2 x = Ok rows ->
  put_mask (node_coords (mesh s1)) (is_interior_node (mesh s1)) rows
  = Ok coords ->
  energy (flip_until_delaunay
            (update_values (set_node_coords (mesh s1) coords)))
         uniform_density_default = Ok e ->
  let m := flip_until_delaunay
             (update_values (set_node_coords (mesh s1) coords)) in
  nonlinear_optimization_uniform verbose fmt cb X cells tol n
  = ({| mesh := m; step := step s1;
        out := out s1 ++ [PrintFinal nit; PrintStats m e; PrintBlank] |},
     Ok (node_coords m, cells_nodes m))
  /\ flatten (select (is_interior_node (MeshTri_init X cells)) (node_coords m))
     = x
  /\ is_interior_node m = is_interior_node (MeshTri_init X cells).
Proof.
  intros Hp Hr Hrows Hput He m.
  pose proof (mask_is_kept _ _ _ _ _ _ _ _ _ _ _ Hp Hr) as Hmask.
  split; [|split].
  - unfold nonlinear_optimization_uniform, nonlinear_body.
    unfold mbind at 1, ST_bind. rewrite Hp.
    unfold mbind at 1, ST_bind. rewrite Hr.
    by apply (final_flip_value x nit s1 rows coords e).
  - apply put_mask_inv in Hput as (Hlen & Hcount & ->). unfold m.
    rewrite flip_node_coords, update_node_coords.
    cbn [node_coords set_node_coords].
    rewrite <-Hmask, select_fill by done. by apply flatten_reshape2.
  - unfold m. rewrite flip_mask, update_mask.
    cbn [is_interior_node set_node_coords]. exact Hmask.
Qed.
End TerminationClaim.

Section OptimizerClaims.
Context {QP : Quadpy} {MP : Meshplex} {SP : Scipy}.

(** C9. The parameter [uniform_density] of [energy] defaults to [False]:
    the statistics that [nonlinear_optimization_uniform] prints before
    and after the optimization carry the energy of the inverse-volume
    density, of the initial and of the final mesh, while the objective
    [f] evaluates the energy of the uniform density. *)
Theorem statistics_report_the_default_density :
  uniform_density_default = false
  /\ (forall x s s1,
        (_ ← assign_interior x; modify_mesh update_values) s = (s1, Ok tt) ->
        f x s = (s1, energy (mesh s1) true))
  /\ (forall verbose fmt cb X cells tol n s r,
        nonlinear_optimization_uniform verbose fmt cb X cells tol n
        = (s, Ok r) ->
        exists e0 e1 nit mid,
          energy (MeshTri_init X cells) false = Ok e0
          /\ energy (mesh s) false = Ok e1
          /\ out s = (if fmt then [Save 0 (MeshTri_init X cells)] else [])
                     ++ [PrintBefore; PrintStats (MeshTri_init X cells) e0]
                     ++ mid
                     ++ [PrintFinal nit; PrintStats (mesh s) e1; PrintBlank]).
Proof.
  split; [done|]. split; [apply f_value|].
  intros verbose fmt cb X cells tol n s r Hrun.
  apply nonlinear_run_inv in Hrun
    as (s0 & x0 & s1 & x & nit & success & Hp & Hr & Hf).
  apply prologue_out in Hp as (e0 & He0 & Hout0 & _ & _).
  apply run_minimizer_extends in Hr as [mid Hout1].
  apply final_flip_inv in Hf
    as (rows & coords & e1 & _ & _ & _ & He1 & _ & Hout & _).
  exists e0, e1, nit, ((if cb is Some _ then [Callback 0 (MeshTri_init X cells)]
                        else []) ++ mid).
  split; [done|]. split; [done|].
  rewrite Hout, Hout1, Hout0. cbn. by rewrite <-!app_assoc.
Qed.

(** C10. With a callback, [nonlinear_optimization_uniform] calls it with
    step 0 and the initial mesh before the minimizer starts, then once in
    every call of [flip_delaunay], which the minimizer makes once per
    accepted step, with the running count; evaluations of the objective
    and of the gradient do not call it. A run that returns has called it
    with the counts 0, 1, ..., [flip_delaunay.step], so at least once,
    and [flip_delaunay.step] is the number of steps the minimizer
    accepted: the callback has been called once before the first step
    and once for every accepted step. *)
Theorem callback_is_called_before_the_first_step c :
  (forall fmt X s s' x0,
     prologue fmt (Some c) X s = (s', Ok x0) ->
     mesh s' = mesh s
     /\ callbacks (out s') = callbacks (out s) ++ [(0%nat, mesh s)])
  /\ (forall verbose fmt x s s',
        flip_delaunay verbose fmt (Some c) x s = (s', Ok tt) ->
        step s' = S (step s)
        /\ callbacks (out s') = callbacks (out s) ++ [(S (step s), mesh s')])
  /\ (forall verbose fmt X cells tol n s r,
        nonlinear_optimization_uniform verbose fmt (Some c) X cells tol n
        = (s, Ok r) ->
        called_each_step (MeshTri_init X cells) s)
  /\ (forall verbose fmt X cells tol n s r,
        nonlinear_optimization_uniform verbose fmt (Some c) X cells tol n
        = (s, Ok r) ->
        exists s0 x0,
          prologue fmt (Some c) X (initial_state X cells) = (s0, Ok x0)
          /\ let steps := accepted_steps verbose fmt (Some c)
                             (minimize_bfgs x0 tol n) s0 in
             step s = length steps
             /\ map fst (callbacks (out s)) = seq 0 (S (length steps))).
Proof.
  split; [|split; [|split]]; cycle 3.
  { intros verbose fmt X cells tol n s r Hrun.
    apply nonlinear_run_inv in Hrun
      as (s0 & x0 & s1 & x & nit & success & Hp & Hr & Hf).
    exists s0, x0. split; [done|]. cbv zeta.
    apply prologue_out in Hp as (e0 & He0 & Hout0 & Hstep0 & _).
    apply run_minimizer_steps in Hr as [Hst Hcb].
    apply final_flip_inv in Hf
      as (rows & coords & e1 & _ & _ & _ & _ & Hstep & Hout & _).
    rewrite Hstep0 in Hst, Hcb. cbn in Hst. split; [by rewrite Hstep|].
    rewrite Hout, callbacks_app, map_app, Hcb, Hout0, !callbacks_app.
    cbn. destruct fmt; cbn; by rewrite app_nil_r. }
  - intros fmt X s s' x0 Hp.
    apply prologue_out in Hp as (e0 & He0 & Hout0 & _ & Hmesh).
    split; [done|]. rewrite Hout0, !callbacks_app.
    destruct fmt; cbn; by rewrite ?app_nil_r.
  - intros verbose fmt x s s'. apply flip_delaunay_callback.
  - intros verbose fmt X cells tol n s r Hrun.
    apply nonlinear_run_inv in Hrun
      as (s0 & x0 & s1 & x & nit & success & Hp & Hr & Hf).
    apply prologue_out in Hp as (e0 & He0 & Hout0 & Hstep0 & _).
    assert (H0 : called_each_step (MeshTri_init X cells) s0).
    { unfold called_each_step. rewrite Hout0, Hstep0. cbn.
      rewrite !callbacks_app. destruct fmt; cbn; eauto. }
    apply (run_minimizer_callbacks _ _ _ _ _ _ _ _ Hr) in H0.
    apply final_flip_inv in Hf
      as (rows & coords & e1 & _ & _ & _ & _ & Hstep & Hout & _).
    unfold called_each_step. rewrite Hout, Hstep, callbacks_app. cbn.
    by rewrite app_nil_r.
Qed.
End OptimizerClaims.

(** ** A run on the square *)

Lemma minimizer_termination_is_accepted_witness :
  exists s1 m e nit x,
    nonlinear_optimization_uniform
      (QP := Reference.quadpy) (MP := Reference.meshplex)
      (SP := Reference.scipy) false false None
      Reference.square_points Reference.square_cells (Reference.q 1 100) 2
    = ({| mesh := m; step := step s1;
          out := out s1 ++ [PrintFinal nit; PrintStats m e; PrintBlank] |},
       Ok (node_coords m, cells_nodes m))
    /\ flatten (select (is_interior_node Reference.square) (node_coords m)) = x
    /\ is_interior_node m = is_interior_node Reference.square.
Proof.
  destruct (prologue (QP := Reference.quadpy) false None
              Reference.square_points
              (initial_state (MP := Reference.meshplex)
                 Reference.square_points Reference.square_cells))
    as [s0 [x0|err]] eqn:Hp; [|vm_compute in Hp; discriminate Hp].
  pose proof Hp as Hp'. vm_compute in Hp'. injection Hp' as Hs0 Hx0.
  destruct (run_minimizer (QP := Reference.quadpy) (MP := Reference.meshplex)
              false false None
              (minimize_bfgs (Scipy := Reference.scipy) x0
                 (Reference.q 1 100) 2) s0)
    as [s1 [[[x nit] success]|err]] eqn:Hr;
    [|subst s0 x0; vm_compute in Hr; discriminate Hr].
  pose proof Hr as Hr'. rewrite <-Hs0, <-Hx0 in Hr'. vm_compute in Hr'.
  injection Hr' as Hs1 Hx Hnit Hsuccess.
  destruct (reshape2 x) as [rows|err] eqn:Hrows;
    [|subst x; vm_compute in Hrows; discriminate Hrows].
  pose proof Hrows as Hrows'. rewrite <-Hx in Hrows'. vm_compute in Hrows'.
  injection Hrows' as Hrows'.
  destruct (put_mask (node_coords (mesh s1)) (is_interior_node (mesh s1)) rows)
    as [coords|err] eqn:Hput;
    [|subst s1 rows; vm_compute in Hput; discriminate Hput].
  pose proof Hput as Hput'. rewrite <-Hs1, <-Hrows' in Hput'.
  vm_compute in Hput'. injection Hput' as Hcoords.
  destruct (energy (QP := Reference.quadpy)
              (flip_until_delaunay (Meshplex := Reference.meshplex)
                 (update_values (Meshplex := Reference.meshplex)
                    (set_node_coords (mesh s1) coords)))
              uniform_density_default) as [e|err] eqn:He;
    [|subst s1 coords; vm_compute in He; discriminate He].
  eexists s1, _, e, nit, x.
  exact (minimizer_termination_is_accepted
           (ML := Reference.meshplex_laws) false false None
           Reference.square_points Reference.square_cells (Reference.q 1 100) 2
           s0 x0 s1 x nit success rows coords e Hp Hr Hrows Hput He).
Defined.

(** With a callback and a cap of three steps the callback is called four
    times, with the counts 0 to 3. *)
Example callback_counts_on_the_square :
  map fst
    (callbacks
       (out (nonlinear_optimization_uniform
               (QP := Reference.quadpy) (MP := Reference.meshplex)
               (SP := Reference.scipy) false false (Some (fun _ _ => Ok tt))
               Reference.square_points Reference.square_cells
               (Reference.q 1 100) 3).1))
  = [0; 1; 2; 3]%nat.
Proof. vm_compute. reflexivity. Qed.

(** On that run the minimizer accepts three steps. *)
Example accepted_steps_on_the_square :
  (let cb := Some (fun _ _ => Ok tt) in
   let run := prologue (QP := Reference.quadpy) false cb
                Reference.square_points
                (initial_state (MP := Reference.meshplex)
                   Reference.square_points Reference.square_cells) in
   match run.2 with
   | Ok x0 =>
       length (accepted_steps (QP := Reference.quadpy)
                 (MP := Reference.meshplex) false false cb
                 (minimize_bfgs (Scipy := Reference.scipy) x0
                    (Reference.q 1 100) 3)
                 run.1)
   | Raise _ => 0%nat
   end) = 3%nat.
Proof. vm_compute. reflexivity. Qed.

(** The energies of the square, in both density modes. *)
Example energy_of_the_square :
  this <$> energy (QP := Reference.quadpy) Reference.square false
  = Ok (17 # 6)%Q
  /\ this <$> energy (QP := Reference.quadpy) Reference.square true
     = Ok (3 # 1)%Q.
Proof. split; vm_compute; reflexivity. Qed.

(** One volume-averaged step moves the interior node of the square to
    its centre. *)
Example fixed_point_on_the_square :
  (fun r => map as_Q r.1)
    <$> fixed_point_uniform (MP := Reference.meshplex) (HP := Reference.helpers)
          Reference.square_points Reference.square_cells (Reference.q 1 100) 1
  = Ok [(0, 0); (2 # 1, 0); (2 # 1, 2 # 1); (0, 2 # 1); (1, 1)]%Q.
Proof. vm_compute. reflexivity. Qed.

(** ** The reference quadrature *)

Lemma of_nat_S n : of_nat (S n) = of_nat n + 1.
Proof.
  unfold of_nat. apply Qc_is_canon. unfold Qcplus, Q2Qc. cbn [this].
  rewrite !Qred_correct, Nat2Z.inj_succ. unfold Z.succ.
  by rewrite inject_Z_plus.
Qed.

(** Dunavant's rule of degree 2 gives the integral of ||x||^2 over a
    triangle with corners a, b, c: area/6 times
    (|a|^2 + |b|^2 + |c|^2 + a.b + b.c + c.a). *)
Lemma dunavant2_exact_on_norm2 (a b c : point) :
  Reference.dunavant2 norm2 (a, b, c)
  = Reference.volume (a, b, c)
    * ((norm2 a + norm2 b + norm2 c
        + (a.1 * b.1 + a.2 * b.2) + (b.1 * c.1 + b.2 * c.2)
        + (c.1 * a.1 + c.2 * a.2)) / of_nat 6).
Proof.
  unfold Reference.dunavant2, norm2. destruct a as [a1 a2], b as [b1 b2],
    c as [c1 c2]. cbn [fst snd].
  generalize (Reference.volume (a1, a2, (b1, b2), (c1, c2))). intros v.
  rewrite !of_nat_S. change (of_nat 0) with 0. field.
  split; intros H; apply (f_equal this) in H; vm_compute in H; discriminate H.
Qed.

(** * Further properties of the code *)

(** ** Writing and reading the interior nodes *)

Lemma length_flatten (rows : list point) :
  length (flatten rows) = (2 * length rows)%nat.
Proof.
  unfold flatten. induction rows as [|r rows IH]; cbn; [done|].
  rewrite IH. lia.
Qed.

(** What the masked write of [x] makes of the store. *)
Lemma assign_interior_inv x s s' :
  assign_interior x s = (s', Ok tt) ->
  exists rows,
    reshape2 x = Ok rows
    /\ length (is_interior_node (mesh s)) = length (node_coords (mesh s))
    /\ length rows = count_true (is_interior_node (mesh s))
    /\ s' = {| mesh := set_node_coords (mesh s)
                         (fill (is_interior_node (mesh s))
                               (node_coords (mesh s)) rows);
               step := step s; out := out s |}.
Proof.
  unfold assign_interior, mbind, ST_bind, lift, get_mesh, modify_mesh, modify.
  destruct (reshape2 x) as [rows|]; [|done]. unfold put_mask.
  repeat case_decide; try done. intros [= <-]. by exists rows.
Qed.

#[local] Opaque energy grad_loop.

Section WriteRead.
Context {QP : Quadpy} {MP : Meshplex} {ML : MeshplexLaws MP}.

(** X1. When the objective [f] returns for an [x] that has two entries
    for every interior node, the value is the uniform-density energy of
    the mesh it leaves, and in that mesh the interior nodes, read back
    through the mask and flattened, are [x], while the mask and every
    other node are as before the call. *)
Theorem f_evaluates_the_energy_at_x x s s' e :
  length x = (2 * count_true (is_interior_node (mesh s)))%nat ->
  f x s = (s', Ok e) ->
  energy (mesh s') true = Ok e
  /\ flatten (select (is_interior_node (mesh s')) (node_coords (mesh s'))) = x
  /\ is_interior_node (mesh s') = is_interior_node (mesh s)
  /\ forall i, is_interior_node (mesh s) !! i = Some false ->
               node_coords (mesh s') !! i = node_coords (mesh s) !! i.
Proof.
  intros _. unfold f. unfold mbind at 1, ST_bind.
  destruct (assign_interior x s) as [s1 [[]|err]] eqn:Ha; [|done].
  apply assign_interior_inv in Ha as (rows & Hrows & Hlen & Hcount & ->).
  unfold mbind, ST_bind, modify_mesh, modify, get_mesh, lift. cbn.
  intros [= <- He]. cbn. rewrite update_mask, update_node_coords. cbn.
  split; [done|]. split; [|split; [done|]].
  - rewrite select_fill by done. by apply flatten_reshape2.
  - intros i Hi. by apply lookup_fill_false.
Qed.

(** X2. A gradient that [jac] returns has two entries for every
    interior node of the mesh. *)
Theorem jac_returns_two_entries_per_interior_node x s s' g :
  jac x s = (s', Ok g) ->
  length g = (2 * count_true (is_interior_node (mesh s)))%nat.
Proof.
  unfold jac. unfold mbind at 1, ST_bind.
  destruct (assign_interior x s) as [s1 [[]|err]] eqn:Ha; [|done].
  apply assign_interior_inv in Ha as (rows & Hrows & Hlen & Hcount & ->).
  unfold mbind at 1 2, ST_bind, modify_mesh, modify, get_mesh, lift. cbn.
  unfold gradient.
  destruct (grad_loop _) as [grad|]; cbn; [|done].
  unfold get_mask. case_decide as Hl; cbn; [|done].
  intros [= <- <-]. rewrite update_mask in *. cbn in *.
  by rewrite length_flatten, length_select.
Qed.
End WriteRead.

Lemma f_evaluates_the_energy_at_x_witness :
  let x := [Reference.q 1 1; Reference.q 3 4] in
  let s := {| mesh := Reference.square; step := 0; out := [] |} in
  length x = (2 * count_true (is_interior_node (mesh s)))%nat
  /\ match f (QP := Reference.quadpy) (MP := Reference.meshplex) x s with
     | (s', Ok e) =>
         flatten (select (is_interior_node (mesh s')) (node_coords (mesh s')))
         = x
     | (_, Raise _) => False
     end.
Proof.
  cbv zeta.
  assert (Hx : length [Reference.q 1 1; Reference.q 3 4]
               = (2 * count_true (is_interior_node Reference.square))%nat)
    by reflexivity.
  split; [exact Hx|].
  destruct (f (QP := Reference.quadpy) (MP := Reference.meshplex)
              [Reference.q 1 1; Reference.q 3 4]
              {| mesh := Reference.square; step := 0; out := [] |})
    as [s' [e|err]] eqn:Hf.
  - exact (proj1 (proj2 (f_evaluates_the_energy_at_x
                           (ML := Reference.meshplex_laws) _
                           {| mesh := Reference.square; step := 0; out := [] |}
                           _ _ Hx Hf))).
  - vm_compute in Hf. discriminate Hf.
Defined.

Lemma jac_returns_two_entries_per_interior_node_witness :
  let x := [Reference.q 1 1; Reference.q 3 4] in
  let s := {| mesh := Reference.square; step := 0; out := [] |} in
  match jac (MP := Reference.meshplex) x s with
  | (_, Ok g) => length g = (2 * count_true (is_interior_node (mesh s)))%nat
  | (_, Raise _) => False
  end.
Proof.
  cbv zeta.
  destruct (jac (MP := Reference.meshplex)
              [Reference.q 1 1; Reference.q 3 4]
              {| mesh := Reference.square; step := 0; out := [] |})
    as [s' [g|err]] eqn:Hj.
  - exact (jac_returns_two_entries_per_interior_node
             (ML := Reference.meshplex_laws) _ _ _ _ Hj).
  - vm_compute in Hj. discriminate Hj.
Defined.

(** ** What the optimizer returns *)

Section ReturnedPoints.
Context {QP : Quadpy} {MP : Meshplex} {SP : Scipy} {ML : MeshplexLaws MP}.

(** X3. When [nonlinear_optimization_uniform] returns, the interior
    nodes of the returned points, read through the interior mask of the
    input mesh and flattened, are the minimizer's final iterate [out.x]:
    the last edge flip moves no node. *)
Theorem returned_interior_is_the_final_iterate verbose fmt cb X cells tol n
    s pts cls :
  nonlinear_optimization_uniform verbose fmt cb X cells tol n
  = (s, Ok (pts, cls)) ->
  exists s0 x0 s1 x nit success,
    prologue fmt cb X (initial_state X cells) = (s0, Ok x0)
    /\ run_minimizer verbose fmt cb (minimize_bfgs x0 tol n) s0
       = (s1, Ok (x, nit, success))
    /\ flatten (select (is_interior_node (MeshTri_init X cells)) pts) = x.
Proof.
  intros Hrun.
  apply nonlinear_run_inv in Hrun
    as (s0 & x0 & s1 & x & nit & success & Hp & Hr & Hf).
  exists s0, x0, s1, x, nit, success. split; [done|]. split; [done|].
  pose proof (mask_is_kept _ _ _ _ _ _ _ _ _ _ _ Hp Hr) as Hmask.
  apply final_flip_inv in Hf
    as (rows & coords & e & Hrows & Hput & Hmesh & _ & _ & _ & [= -> _]).
  apply put_mask_inv in Hput as (Hlen & Hcount & ->).
  rewrite Hmesh, flip_node_coords, update_node_coords. cbn.
  rewrite <-Hmask, select_fill by done. by apply flatten_reshape2.
Qed.
End ReturnedPoints.

Lemma returned_interior_is_the_final_iterate_witness :
  match (nonlinear_optimization_uniform
           (QP := Reference.quadpy) (MP := Reference.meshplex)
           (SP := Reference.scipy) false false None
           Reference.square_points Reference.square_cells (Reference.q 1 100) 2).2
  with
  | Ok (pts, _) =>
      exists x, flatten (select (is_interior_node Reference.square) pts) = x
                /\ length x = 2%nat
  | Raise _ => False
  end.
Proof.
  destruct (nonlinear_optimization_uniform false false None
              Reference.square_points Reference.square_cells
              (Reference.q 1 100) 2) as [s [[pts cls]|err]] eqn:Hrun; cbn [snd].
  - destruct (returned_interior_is_the_final_iterate
                (ML := Reference.meshplex_laws) _ _ _ _ _ _ _ _ _ _ Hrun)
      as (s0 & x0 & s1 & x & nit & success & _ & _ & Hx).
    exists x. split; [exact Hx|].
    rewrite <-Hx. vm_compute in Hrun. injection Hrun as _ <- _.
    reflexivity.
  - vm_compute in Hrun. discriminate Hrun.
Defined.

(** ** The order of the cells *)

#[local] Transparent energy grad_loop.

Section Reordering.
Context {A : Type} (add : A -> A -> A) (zero : A).
Context `{!Assoc (=) add, !Comm (=) add, !LeftId (=) zero add}.

Lemma bigsum_perm {B} (f : B -> A) (l l' : list B) :
  l ≡ₚ l' -> bigsum add zero f l = bigsum add zero f l'.
Proof.
  unfold bigsum. induction 1 as [|b l l' _ IH|b c l|l l' l'' _ IH1 _ IH2]; cbn.
  - done.
  - by rewrite IH.
  - rewrite !(assoc add). f_equal. apply (comm add).
  - by rewrite IH1.
Qed.

Lemma star_sum_perm {B} (cell_of : B -> cell) (g : B -> nat -> A)
    (l l' : list B) i :
  l ≡ₚ l' ->
  star_sum add zero cell_of g l i = star_sum add zero cell_of g l' i.
Proof. apply bigsum_perm. Qed.
End Reordering.

Lemma zip_cells_volumes m :
  valid_mesh m = true ->
  zip (cells_nodes m) (cell_volumes m)
  = (fun b : cell * (point * num) => (b.1, b.2.2))
      <$> zip (cells_nodes m) (zip (cell_circumcenters m) (cell_volumes m)).
Proof.
  intros Hv. destruct (valid_mesh_lengths m Hv) as (Hvol & Hcc & _).
  revert Hvol Hcc.
  generalize (cells_nodes m) (cell_circumcenters m) (cell_volumes m).
  intros cs. induction cs as [|c cs IH]; intros [|cc ccs] [|v vs] Hv' Hc';
    cbn in *; try done.
  f_equal. apply IH; lia.
Qed.

Lemma same_cells_volumes m m' :
  valid_mesh m = true -> valid_mesh m' = true -> same_cells m m' ->
  zip (cells_nodes m') (cell_volumes m')
  ≡ₚ zip (cells_nodes m) (cell_volumes m).
Proof.
  intros Hv Hv' (_ & _ & Hp). rewrite !zip_cells_volumes by done.
  by apply fmap_Permutation.
Qed.

Section ReorderingClaims.
Context {QP : Quadpy}.

(** X4. The energy does not depend on the order in which the cells are
    listed: two valid meshes with the same nodes and the same cells, each
    with its volume, in any order, have the same energy in both density
    modes, and [energy] raises for the one when it raises for the other. *)
Theorem energy_ignores_the_order_of_cells m m' ud :
  valid_mesh m = true -> valid_mesh m' = true -> same_cells m m' ->
  energy m' ud = energy m ud.
Proof.
  intros Hv Hv' Hs. pose proof (same_cells_volumes m m' Hv Hv' Hs) as Hp.
  destruct Hs as (Hn & _ & _).
  rewrite !energy_value by done.
  assert (star_term_spec m' ud = star_term_spec m ud) as ->.
  { unfold star_term_spec. rewrite Hn. f_equal.
    apply bigsum_ext. intros [i p] _. cbn. f_equal.
    unfold star_volume_spec. by apply (star_sum_perm Qcplus 0). }
  assert (integral_term_spec m' ud = integral_term_spec m ud) as ->; [|done].
  unfold integral_term_spec. rewrite Hn. by apply (bigsum_perm Qcplus 0).
Qed.
End ReorderingClaims.

(** X5. Nor does the gradient that [jac] computes from the mesh: two
    valid meshes with the same nodes and interior mask and the same cells,
    each with its circumcenter and volume, in any order, have the same
    gradient. *)
Theorem gradient_ignores_the_order_of_cells m m' :
  valid_mesh m = true -> valid_mesh m' = true -> same_cells m m' ->
  gradient m' = gradient m.
Proof.
  intros Hv Hv' (Hn & Hm & Hp). rewrite !gradient_value by done.
  f_equal. unfold jac_spec. rewrite Hn, Hm. do 2 f_equal.
  apply map_ext. intros i. unfold node_gradient_spec. rewrite Hn. f_equal.
  by apply (star_sum_perm padd pzero).
Qed.

Lemma square_rotated_same_cells :
  same_cells Reference.square Reference.square_rotated.
Proof.
  split; [done|]. split; [done|].
  change (zip (cells_nodes Reference.square_rotated)
              (zip (cell_circumcenters Reference.square_rotated)
                   (cell_volumes Reference.square_rotated)))
    with (tail (zip (cells_nodes Reference.square)
                    (zip (cell_circumcenters Reference.square)
                         (cell_volumes Reference.square)))
          ++ [(((0, 1, 4)%nat : cell),
               (Reference.circumcenter
                  (corner_points Reference.square_points (0, 1, 4)%nat),
                Reference.volume
                  (corner_points Reference.square_points (0, 1, 4)%nat)))]).
  symmetry. apply Permutation_cons_append.
Defined.

Lemma energy_ignores_the_order_of_cells_witness :
  energy (QP := Reference.quadpy) Reference.square_rotated false
  = energy (QP := Reference.quadpy) Reference.square false.
Proof.
  apply energy_ignores_the_order_of_cells;
    [vm_compute; reflexivity|vm_compute; reflexivity|].
  exact square_rotated_same_cells.
Defined.

Lemma gradient_ignores_the_order_of_cells_witness :
  gradient Reference.square_rotated = gradient Reference.square.
Proof.
  apply gradient_ignores_the_order_of_cells;
    [vm_compute; reflexivity|vm_compute; reflexivity|].
  exact square_rotated_same_cells.
Defined.

(** ** What a run prints and saves *)

#[local] Opaque energy grad_loop.

Lemma saves_app l1 l2 : saves (l1 ++ l2) = saves l1 ++ saves l2.
Proof. unfold saves. apply flat_map_app. Qed.

Section Output.
Context {QP : Quadpy} {MP : Meshplex} {SP : Scipy}.

Lemma f_keeps_output (R : nat -> list event -> Prop) x s :
  R (step s) (out s) -> R (step (f x s).1) (out (f x s).1).
Proof.
  intros HR.
  pose proof (keeps_f (fun t => R (step t) (out t))
                (fun t rows coords H _ => H) (fun t H => H) x s HR) as Hk.
  by destruct (f x s) as [s' [v|e]].
Qed.

Lemma jac_keeps_output (R : nat -> list event -> Prop) x s :
  R (step s) (out s) -> R (step (jac x s).1) (out (jac x s).1).
Proof.
  intros HR.
  pose proof (keeps_jac (fun t => R (step t) (out t))
                (fun t rows coords H _ => H) (fun t H => H) x s HR) as Hk.
  by destruct (jac x s) as [s' [v|e]].
Qed.

Lemma flip_delaunay_quiet x s :
  out (flip_delaunay false false None x s).1 = out s.
Proof.
  unfold flip_delaunay, assign_interior, save, call_callback.
  unfold mbind, ST_bind, get_mesh, get_step, set_step, emit, modify_mesh,
    modify, lift, mret, ST_ret.
  destruct (reshape2 x) as [rows|]; [|done].
  by destruct (put_mask _ _ rows) as [coords|].
Qed.

Lemma run_minimizer_quiet m s :
  out (run_minimizer false false None m s).1 = out s.
Proof.
  revert s.
  induction m as [x nit success|e|x k IH|x k IH|x k IH]; intros s;
    cbn [run_minimizer]; unfold mbind, ST_bind.
  - done.
  - done.
  - pose proof (f_keeps_output (fun _ o => o = out s) x s eq_refl) as Hk.
    destruct (f x s) as [s1 [v|e]]; [|done]. by rewrite IH.
  - pose proof (jac_keeps_output (fun _ o => o = out s) x s eq_refl) as Hk.
    destruct (jac x s) as [s1 [g|e]]; [|done]. by rewrite IH.
  - pose proof (flip_delaunay_quiet x s) as Hk.
    destruct (flip_delaunay false false None x s) as [s1 [[]|e]]; [|done].
    by rewrite IH.
Qed.

(** X6. Without [verbose], without a snapshot template and without a
    callback the function is not silent: a run that returns has printed
    the line "Before:" with the statistics of the input mesh and the line
    "Final" with the statistics of the returned mesh, each with the energy
    of the default density, then a blank line, and nothing else. *)
Theorem quiet_run_prints_before_and_final X cells tol n s r :
  nonlinear_optimization_uniform false false None X cells tol n = (s, Ok r) ->
  exists e0 e1 nit,
    energy (MeshTri_init X cells) false = Ok e0
    /\ energy (mesh s) false = Ok e1
    /\ out s = [PrintBefore; PrintStats (MeshTri_init X cells) e0;
                PrintFinal nit; PrintStats (mesh s) e1; PrintBlank].
Proof.
  intros Hrun.
  apply nonlinear_run_inv in Hrun
    as (s0 & x0 & s1 & x & nit & success & Hp & Hr & Hf).
  apply prologue_out in Hp as (e0 & He0 & Hout0 & _ & _).
  pose proof (run_minimizer_quiet (minimize_bfgs x0 tol n) s0) as Hq.
  rewrite Hr in Hq. cbn in Hq.
  apply final_flip_inv in Hf
    as (rows & coords & e1 & _ & _ & _ & He1 & _ & Hout & _).
  exists e0, e1, nit. split; [done|]. split; [done|].
  by rewrite Hout, Hq, Hout0.
Qed.

(** One call of [flip_delaunay] with a snapshot template saves one
    snapshot, numbered with the new count. *)
Lemma flip_delaunay_save verbose cb x s s' :
  flip_delaunay verbose true cb x s = (s', Ok tt) ->
  step s' = S (step s)
  /\ exists m, saves (out s') = saves (out s) ++ [(S (step s), m)].
Proof.
  unfold flip_delaunay, f, assign_interior, save, call_callback.
  unfold mbind, ST_bind, get_mesh, get_step, set_step, emit, modify_mesh,
    modify, lift, mret, ST_ret.
  destruct (reshape2 x) as [rows|]; [|done].
  destruct (put_mask _ _ rows) as [coords|]; [|done]. cbn.
  destruct verbose, cb as [c|]; cbn;
    repeat match goal with
      | |- context [match put_mask ?a ?m ?r with _ => _ end] =>
          destruct (put_mask a m r); cbn; [|done]
      | |- context [match energy ?m ?u with _ => _ end] =>
          destruct (energy m u); cbn; [|done]
      | |- context [match c ?k ?m with _ => _ end] =>
          destruct (c k m) as [[]|]; cbn; [|done]
      end;
    intros [= <-]; cbn; rewrite Nat.add_1_r; (split; [done|]);
    rewrite !saves_app; cbn; rewrite ?app_nil_r; eauto.
Qed.

Lemma run_minimizer_saves verbose cb m0 m s s' res :
  run_minimizer verbose true cb m s = (s', Ok res) ->
  saved_each_step m0 s -> saved_each_step m0 s'.
Proof.
  revert s.
  induction m as [x nit success|e|x k IH|x k IH|x k IH]; intros s;
    cbn [run_minimizer]; unfold mbind, ST_bind.
  - by intros [= <- _].
  - done.
  - intros Hr HJ.
    pose proof (f_keeps_output
                  (fun k o => (exists rest, saves o = (0%nat, m0) :: rest)
                              /\ map fst (saves o) = seq 0 (S k)) x s HJ) as Hk.
    destruct (f x s) as [s1 [v|e]]; [|done]. by apply (IH v s1 Hr).
  - intros Hr HJ.
    pose proof (jac_keeps_output
                  (fun k o => (exists rest, saves o = (0%nat, m0) :: rest)
                              /\ map fst (saves o) = seq 0 (S k)) x s HJ) as Hk.
    destruct (jac x s) as [s1 [g|e]]; [|done]. by apply (IH g s1 Hr).
  - destruct (flip_delaunay verbose true cb x s) as [s1 [[]|e]] eqn:Hfd;
      [|done].
    intros Hr [[rest Hrest] Hidx]. apply (IH s1 Hr).
    apply flip_delaunay_save in Hfd as [Hstep [m1 Hsv]]. split.
    + exists (rest ++ [(S (step s), m1)]). by rewrite Hsv, Hrest.
    + rewrite Hsv, map_app, Hidx, Hstep. cbn [map fst].
      by rewrite (seq_S (S (step s))).
Qed.

(** X7. With a snapshot template, a run that returns has saved the
    input mesh as snapshot 0 and one snapshot in every call of
    [flip_delaunay], numbered 1, 2, ... up to the number of steps; the
    mesh after the last edge flip, which is the one returned, is not
    saved. *)
Theorem snapshots_are_numbered_by_step verbose cb X cells tol n s r :
  nonlinear_optimization_uniform verbose true cb X cells tol n = (s, Ok r) ->
  (exists rest, saves (out s) = (0%nat, MeshTri_init X cells) :: rest)
  /\ map fst (saves (out s)) = seq 0 (S (step s)).
Proof.
  intros Hrun.
  apply nonlinear_run_inv in Hrun
    as (s0 & x0 & s1 & x & nit & success & Hp & Hr & Hf).
  apply prologue_out in Hp as (e0 & He0 & Hout0 & Hstep0 & _).
  assert (H0 : saved_each_step (MeshTri_init X cells) s0).
  { unfold saved_each_step. rewrite Hout0, Hstep0. cbn.
    destruct cb; cbn; eauto. }
  apply (run_minimizer_saves _ _ _ _ _ _ _ Hr) in H0.
  apply final_flip_inv in Hf
    as (rows & coords & e1 & _ & _ & _ & _ & Hstep & Hout & _).
  fold (saved_each_step (MeshTri_init X cells) s).
  unfold saved_each_step. rewrite Hout, Hstep, saves_app. cbn.
  by rewrite app_nil_r.
Qed.

(** X8. With [verbose], the statistics printed after a step carry the
    energy of the uniform density, the value of the objective at the
    step, and not the energy of the default density that the lines
    "Before:" and "Final" carry. *)
Theorem step_statistics_report_the_objective fmt cb x s s' :
  flip_delaunay true fmt cb x s = (s', Ok tt) ->
  exists e pre post,
    energy (mesh s') true = Ok e
    /\ out s' = out s ++ pre
                ++ [PrintStep (S (step s)); PrintStats (mesh s') e] ++ post.
Proof.
  unfold flip_delaunay, f, assign_interior, save, call_callback.
  unfold mbind, ST_bind, get_mesh, get_step, set_step, emit, modify_mesh,
    modify, lift, mret, ST_ret.
  destruct (reshape2 x) as [rows|]; [|done].
  destruct (put_mask _ _ rows) as [coords|]; [|done]. cbn.
  destruct fmt, cb as [c|]; cbn;
    repeat match goal with
      | |- context [match put_mask ?a ?m ?r with _ => _ end] =>
          destruct (put_mask a m r); cbn; [|done]
      | |- context [match energy ?m ?u with _ => _ end] =>
          let He := fresh "He" in
          destruct (energy m u) as [e|] eqn:He; cbn; [|done]
      | |- context [match c ?k ?m with _ => _ end] =>
          destruct (c k m) as [[]|]; cbn; [|done]
      end;
    intros [= <-]; cbn; rewrite Nat.add_1_r; exists e;
    [ eexists [_], [_] | eexists [_], [] | eexists [], [_] | eexists [], [] ];
    (split; [done|]); by rewrite <-?app_assoc.
Qed.
End Output.

Lemma quiet_run_prints_before_and_final_witness :
  match nonlinear_optimization_uniform
          (QP := Reference.quadpy) (MP := Reference.meshplex)
          (SP := Reference.scipy) false false None
          Reference.square_points Reference.square_cells (Reference.q 1 100) 2
  with
  | (s, Ok _) => length (out s) = 5%nat
  | (_, Raise _) => False
  end.
Proof.
  destruct (nonlinear_optimization_uniform false false None
              Reference.square_points Reference.square_cells
              (Reference.q 1 100) 2) as [s [r|err]] eqn:Hrun.
  - destruct (quiet_run_prints_before_and_final _ _ _ _ _ _ Hrun)
      as (e0 & e1 & nit & _ & _ & Hout).
    rewrite Hout. reflexivity.
  - vm_compute in Hrun. discriminate Hrun.
Defined.

Lemma snapshots_are_numbered_by_step_witness :
  match nonlinear_optimization_uniform
          (QP := Reference.quadpy) (MP := Reference.meshplex)
          (SP := Reference.scipy) true true None
          Reference.square_points Reference.square_cells (Reference.q 1 100) 2
  with
  | (s, Ok _) => map fst (saves (out s)) = seq 0 (S (step s))
  | (_, Raise _) => False
  end.
Proof.
  destruct (nonlinear_optimization_uniform true true None
              Reference.square_points Reference.square_cells
              (Reference.q 1 100) 2) as [s [r|err]] eqn:Hrun.
  - exact (proj2 (snapshots_are_numbered_by_step _ _ _ _ _ _ _ _ Hrun)).
  - vm_compute in Hrun. discriminate Hrun.
Defined.

Lemma step_statistics_report_the_objective_witness :
  let x := [Reference.q 1 1; Reference.q 3 4] in
  let s := {| mesh := Reference.square; step := 0; out := [] |} in
  match flip_delaunay (QP := Reference.quadpy) (MP := Reference.meshplex)
          true false None x s with
  | (s', Ok _) =>
      exists e pre post,
        energy (QP := Reference.quadpy) (mesh s') true = Ok e
        /\ out s' = out s ++ pre
                    ++ [PrintStep (S (step s)); PrintStats (mesh s') e] ++ post
  | (_, Raise _) => False
  end.
Proof.
  cbv zeta.
  destruct (flip_delaunay (QP := Reference.quadpy) (MP := Reference.meshplex)
              true false None [Reference.q 1 1; Reference.q 3 4]
              {| mesh := Reference.square; step := 0; out := [] |})
    as [s' [[]|err]] eqn:Hfd.
  - exact (step_statistics_report_the_objective _ _ _ _ _ Hfd).
  - vm_compute in Hfd. discriminate Hfd.
Defined.

(** ** How a run ends early *)

Section EarlyEnd.
Context {QP : Quadpy} {MP : Meshplex} {SP : Scipy} {ML : MeshplexLaws MP}.

(** X9. When the energy of the input mesh fails its assertion, the run
    ends with that exception right after the line "Before:": no
    statistics are printed, the callback is not called, the minimizer is
    not started and the mesh is the one built from the input. *)
Theorem initial_energy_failure_ends_the_run verbose fmt cb X cells tol n err :
  energy (MeshTri_init X cells) uniform_density_default = Raise err ->
  nonlinear_optimization_uniform verbose fmt cb X cells tol n
  = ({| mesh := MeshTri_init X cells; step := 0;
        out := (if fmt then [Save 0 (MeshTri_init X cells)] else [])
               ++ [PrintBefore] |},
     Raise err).
Proof.
  intros He.
  unfold nonlinear_optimization_uniform, nonlinear_body, prologue, save,
    print_energy_stats, initial_state.
  unfold mbind, ST_bind, get_mesh, emit, set_step, modify, lift, mret, ST_ret.
  destruct fmt; cbn; by rewrite He.
Qed.

(** X10. An exception of the callback at count 0 is not caught: the run
    ends with it before the minimizer is started, after the statistics
    of the input mesh have been printed, and the mesh is the one built
    from the input. *)
Theorem failing_first_callback_ends_the_run verbose fmt c X cells tol n e0 err :
  energy (MeshTri_init X cells) uniform_density_default = Ok e0 ->
  c 0%nat (MeshTri_init X cells) = Raise err ->
  nonlinear_optimization_uniform verbose fmt (Some c) X cells tol n
  = ({| mesh := MeshTri_init X cells; step := 0;
        out := (if fmt then [Save 0 (MeshTri_init X cells)] else [])
               ++ [PrintBefore; PrintStats (MeshTri_init X cells) e0;
                   Callback 0 (MeshTri_init X cells)] |},
     Raise err).
Proof.
  intros He Hc.
  unfold nonlinear_optimization_uniform, nonlinear_body, prologue, save,
    print_energy_stats, call_callback, initial_state.
  unfold mbind, ST_bind, get_mesh, emit, set_step, modify, lift, mret, ST_ret.
  unfold get_mask.
  destruct fmt; cbn; rewrite He; cbn;
    (case_decide as Hl; [|by rewrite init_mask_length in Hl]);
    cbn; by rewrite Hc.
Qed.
End EarlyEnd.

Lemma initial_energy_failure_ends_the_run_witness :
  (nonlinear_optimization_uniform
     (QP := Reference.quadpy) (MP := Reference.careless)
     (SP := Reference.scipy) true false None
     Reference.square_points Reference.square_cells (Reference.q 1 100) 2)
  = ({| mesh := Reference.defective; step := 0; out := [PrintBefore] |},
     Raise AssertionError).
Proof.
  apply (initial_energy_failure_ends_the_run
           (QP := Reference.quadpy) (MP := Reference.careless)
           (SP := Reference.scipy) true false None).
  vm_compute. reflexivity.
Defined.

Lemma failing_first_callback_ends_the_run_witness :
  (nonlinear_optimization_uniform
     (QP := Reference.quadpy) (MP := Reference.meshplex)
     (SP := Reference.scipy) false false (Some (fun _ _ => Raise UserError))
     Reference.square_points Reference.square_cells (Reference.q 1 100) 2).2
  = Raise UserError.
Proof.
  destruct (energy (QP := Reference.quadpy) Reference.square
              uniform_density_default) as [e0|err] eqn:He.
  - by rewrite (failing_first_callback_ends_the_run
                  (ML := Reference.meshplex_laws) false false
                  (fun _ _ => Raise UserError) Reference.square_points
                  Reference.square_cells (Reference.q 1 100) 2 e0 UserError He).
  - vm_compute in He. discriminate He.
Defined.

#[local] Transparent energy grad_loop.

(** ** The energy and the other functions *)

Lemma energy_set_cell_circumcenters {QP : Quadpy} m cc ud :
  energy (set_cell_circumcenters m cc) ud = energy m ud.
Proof. reflexivity. Qed.

Section Relocation.
Context {QP : Quadpy} {MP : Meshplex} {HP : Helpers}.

Lemma substitute_boundary_energy m ud :
  energy (substitute_boundary m).1 ud = energy m ud.
Proof.
  unfold substitute_boundary.
  unfold mbind, ST_bind, get, modify, lift, mret, ST_ret.
  destruct (take _ _) as [vals|]; [|done].
  by destruct (put _ _ vals) as [cc|].
Qed.

(** X11. The relocators write into the circumcenters of the mesh and
    into nothing the energy reads: in either density mode the energy of
    the mesh after [get_new_points], of either variant, is the energy
    before, whether the call returns or raises. *)
Theorem get_new_points_keeps_the_energy m ud :
  energy (get_new_points_uniform m).1 ud = energy m ud
  /\ energy (get_new_points_density_preserving m).1 ud = energy m ud.
Proof.
  pose proof (substitute_boundary_energy m ud) as Hs.
  unfold get_new_points_uniform, get_new_points_density_preserving.
  unfold mbind, ST_bind, get, lift.
  destruct (substitute_boundary m) as [m1 [cc|e]]; cbn in *; [|done].
  split.
  - by destruct (get_new_points_volume_averaged m1 cc).
  - by destruct (get_new_points_count_averaged m1 cc).
Qed.
End Relocation.

Section SameStore.
Context {QP : Quadpy} {MP : Meshplex}.

(** X12. The objective and its gradient do the same to the mesh: after
    [f x] and after [jac x], from the same state, the state is the same,
    whether the calls return or raise; what they print and the step
    count are untouched. *)
Theorem f_and_jac_leave_the_same_state x s :
  (f x s).1 = (jac x s).1
  /\ out (f x s).1 = out s /\ step (f x s).1 = step s.
Proof.
  unfold f, jac, assign_interior.
  unfold mbind, ST_bind, get_mesh, modify_mesh, modify, lift, mret, ST_ret.
  destruct (reshape2 x) as [rows|]; [|done].
  destruct (put_mask (node_coords (mesh s)) (is_interior_node (mesh s)) rows)
    as [coords|]; [|done].
  by cbn -[energy gradient].
Qed.
End SameStore.

(** ** The two densities *)

Lemma bigsum_scale {B} (v : num) (f : B -> num) l :
  v * bigsum Qcplus 0 f l = bigsum Qcplus 0 (fun b => v * f b) l.
Proof.
  unfold bigsum. induction l as [|b l IH]; cbn; [ring|].
  rewrite <-IH. ring.
Qed.

Lemma leb_scale (v a b : num) : 0 < v -> leb (v * a) (v * b) = leb a b.
Proof.
  intros Hv. unfold leb. apply bool_decide_ext.
  rewrite !(Qcmult_comm v). split.
  - by apply Qcmult_lt_0_le_reg_r.
  - intros Hab. apply Qcmult_le_compat_r; [done|]. by apply Qclt_le_weak.
Qed.

Section Densities.
Context {QP : Quadpy}.

Lemma star_term_scale m v :
  Forall (fun w => w = v) (cell_volumes m) ->
  star_term_spec m true = v * star_term_spec m false.
Proof.
  intros Hall. unfold star_term_spec.
  rewrite Qcmult_assoc, (Qcmult_comm v), <-Qcmult_assoc. f_equal.
  rewrite bigsum_scale. apply (bigsum_ext Qcplus 0). intros [i p] _. cbn.
  rewrite Qcmult_assoc. f_equal.
  unfold star_volume_spec, star_sum.
  rewrite bigsum_scale. apply (bigsum_ext Qcplus 0). intros [c w] Hin.
  rewrite bigsum_scale. apply (bigsum_ext Qcplus 0). intros k _. cbn.
  apply elem_of_zip_r in Hin.
  rewrite (proj1 (Forall_forall _ _) Hall w) by by apply list_elem_of_In.
  case_decide; ring.
Qed.

Lemma integral_term_scale m v :
  0 < v ->
  Forall (fun w => w = v) (cell_volumes m) ->
  integral_term_spec m true = v * integral_term_spec m false.
Proof.
  intros Hv Hall. unfold integral_term_spec.
  rewrite bigsum_scale. apply (bigsum_ext Qcplus 0). intros [c w] Hin. cbn.
  apply elem_of_zip_r in Hin.
  rewrite (proj1 (Forall_forall _ _) Hall w) by by apply list_elem_of_In.
  field. intros ->. by apply (Qclt_not_eq 0 0).
Qed.

(** X13. The two densities differ by the volume of the cells: on a valid
    mesh whose cells all have the volume [v], the energy of the uniform
    density is [v] times the energy of the default density, and the one
    fails its assertion exactly when the other does. *)
Theorem uniform_energy_of_equal_cells m v :
  valid_mesh m = true ->
  0 < v ->
  Forall (fun w => w = v) (cell_volumes m) ->
  energy m true = Qcmult v <$> energy m false.
Proof.
  intros Hm Hv Hall.
  rewrite !energy_value by done.
  rewrite (star_term_scale m v Hall), (integral_term_scale m v Hv Hall).
  rewrite leb_scale by done.
  destruct (leb _ _); cbn; [|done]. f_equal. ring.
Qed.
End Densities.

Lemma uniform_energy_of_equal_cells_witness :
  energy (QP := Reference.quadpy) Reference.centred true
  = Qcmult (Reference.q 1 1)
      <$> energy (QP := Reference.quadpy) Reference.centred false.
Proof.
  apply (uniform_energy_of_equal_cells (QP := Reference.quadpy)
           Reference.centred (Reference.q 1 1)).
  - vm_compute. reflexivity.
  - reflexivity.
  - vm_compute. repeat constructor; apply Qc_is_canon; reflexivity.
Defined.

(** ** The returned mesh *)

Section Returned.
Context {QP : Quadpy} {MP : Meshplex} {SP : Scipy}.

(** X14. What a run returns is read from the mesh as the last edge flip
    left it: the mesh at the end is the result of
    [flip_until_delaunay], applied to the updated mesh that holds the
    minimizer's result, and the returned pair is its coordinates and
    its cells; the final statistics change nothing. *)
Theorem returned_mesh_comes_from_the_last_flip
    verbose fmt cb X cells tol n s pts cls :
  nonlinear_optimization_uniform verbose fmt cb X cells tol n
  = (s, Ok (pts, cls)) ->
  (exists m, mesh s = flip_until_delaunay (update_values m))
  /\ pts = node_coords (mesh s) /\ cls = cells_nodes (mesh s).
Proof.
  intros Hrun.
  apply nonlinear_run_inv in Hrun
    as (s0 & x0 & s1 & x & nit & success & _ & _ & Hf).
  apply final_flip_inv in Hf
    as (rows & coords & e1 & _ & _ & Hm & _ & _ & _ & [= -> ->]).
  split; [|done]. by exists (set_node_coords (mesh s1) coords).
Qed.
End Returned.

Lemma returned_mesh_comes_from_the_last_flip_witness :
  match nonlinear_optimization_uniform
          (QP := Reference.quadpy) (MP := Reference.meshplex)
          (SP := Reference.scipy) false false None
          Reference.kite_points Reference.kite_cells (Reference.q 1 100) 1
  with
  | (s, Ok (pts, cls)) => cls = cells_nodes (mesh s)
  | (_, Raise _) => False
  end.
Proof.
  destruct (nonlinear_optimization_uniform false false None
              Reference.kite_points Reference.kite_cells
              (Reference.q 1 100) 1) as [s [[pts cls]|err]] eqn:Hrun.
  - exact (proj2 (proj2 (returned_mesh_comes_from_the_last_flip
                           _ _ _ _ _ _ _ _ _ _ Hrun))).
  - vm_compute in Hrun. discriminate Hrun.
Defined.
